(** * A shallow embedding of the patricia merkle trie of [lib/trie.js]
    (with [MissingNodeError] of [lib/errors.js]).

    The asynchronous methods of [Trie] only read the store, so they are
    modelled as functions of the trie object returning a [res] value: either
    the result or the exception thrown.  The node codec and the [Hasher] are
    collaborators that live outside [lib/trie.js]; they are parameters of the
    development. *)

From Stdlib Require Import String List Arith Lia Bool ZArith NArith.
Import ListNotations.
Open Scope nat_scope.
Set Warnings "-register-all".

(** ** Buffers and nibble keys *)

Definition bytes := list Byte.byte.
Definition nibbles := list nat.

(** [Buffer.prototype.equals]. *)
Definition bytes_eqb (a b : bytes) : bool :=
  if list_eq_dec Byte.byte_eq_dec a b then true else false.

(** ** Nodes ([lib/nodes.js]) *)

(** [NodeFlags(gen, dirty)] with its cached [hash] (null when created). *)
Record NodeFlags := mkFlags {
  flag_gen : nat;
  flag_dirty : bool;
  flag_hash : option bytes
}.

(** The node variants.  [Undefined] is the JavaScript value [undefined]
    read from a node position (an array slot out of range, or
    [children[undefined]]); every method call on it throws a [TypeError]. *)
Inductive node :=
| NullNode
| HashNode (data : bytes)
| ShortNode (key : nibbles) (value : node) (flags : NodeFlags)
| FullNode (children : list node) (flags : NodeFlags)
| ValueNode (data : bytes)
| Undefined.

Definition NIL := NullNode.

Definition isNull (n : node) : bool :=
  match n with NullNode => true | _ => false end.

(** [new FullNode(flags).children]: 17 slots holding [NIL]. *)
Definition fullNode_children : list node := repeat NIL 17.

(** Reading [arr[i]] of a JavaScript array of nodes ([i] is [undefined]
    when it is [None]). *)
Definition js_get (l : list node) (i : option nat) : node :=
  match i with Some i => nth i l Undefined | None => Undefined end.

(** Writing [arr[i] = x]: in range a slot is replaced; beyond the end the
    array grows, the holes reading as [undefined]; [arr[undefined] = x]
    sets a property named "undefined" and leaves the slots alone. *)
Fixpoint js_set_nat (l : list node) (i : nat) (x : node) : list node :=
  match l, i with
  | [], 0 => [x]
  | [], S i' => Undefined :: js_set_nat [] i' x
  | _ :: l', 0 => x :: l'
  | c :: l', S i' => c :: js_set_nat l' i' x
  end.

Definition js_set (l : list node) (i : option nat) (x : node) : list node :=
  match i with Some i => js_set_nat l i x | None => l end.

(** Calling [f] on [arr[i]], through the elements of [arr] so that a
    recursive [f] stays structural; [d] is the call on [undefined]. *)
Fixpoint nth_app {A} (f : node -> A) (d : A) (l : list node) (i : nat) : A :=
  match l with
  | [] => d
  | c :: l' => match i with 0 => f c | S i' => nth_app f d l' i' end
  end.

(** ** Exceptions and JavaScript values *)

(** The JavaScript values that reach [MissingNodeError]'s constructor. *)
Inductive jsval :=
| JUndefined
| JNull
| JNum (z : Z)
| JBuf (b : bytes)
| JNibs (k : nibbles)
| JObj (fields : list (string * jsval)).

Inductive exn :=
| AssertionError
| Error (msg : string)
| TypeError (msg : string)
| RangeError (msg : string)
| MissingNodeError (rootHash nodeHash key : jsval) (pos : Z)
(** the walk met more nested [Hash] nodes than its resolution bound *)
| OutOfFuel.

Inductive res (A : Type) :=
| Ok (a : A)
| Throw (e : exn).
Arguments Ok {A} a.
Arguments Throw {A} e.

Definition bind {A B} (m : res A) (k : A -> res B) : res B :=
  match m with Ok a => k a | Throw e => Throw e end.

Notation "'let*' x ':=' m 'in' k" := (bind m (fun x => k))
  (at level 200, x name, m at level 100, k at level 200).
Notation "'let*' ' p ':=' m 'in' k" := (bind m (fun x => match x with p => k end))
  (at level 200, p pattern, m at level 100, k at level 200).

Definition js_assert {A} (b : bool) (k : res A) : res A :=
  if b then k else Throw AssertionError.

Definition undefined_read : exn :=
  TypeError "Cannot read properties of undefined".

(** ** Nibble utilities ([lib/common.js])

    [lib/common.js] is not part of the sources; the helpers below are
    modelled from the spec (4.1). *)

(** Modelled from the spec: [toNibbles] of [lib/common.js], two nibbles
    per byte, high first.  The terminator nibble 16 is appended, as the
    spec's data model (3), its codec contract (4.3) and scenario S2 require:
    a leaf's key ends in 16 and [lib/trie.js] never adds it itself. *)
Definition nib_hi (b : Byte.byte) : nat := N.to_nat (N.shiftr (Byte.to_N b) 4).
Definition nib_lo (b : Byte.byte) : nat := N.to_nat (N.land (Byte.to_N b) 15).

Definition toNibbles (key : bytes) : nibbles :=
  flat_map (fun b => [nib_hi b; nib_lo b]) key ++ [16].

(** Modelled from the spec: [fromNibbles] of [lib/common.js]; a final
    terminator 16 is dropped, then nibbles are packed in pairs. *)
Fixpoint pack_nibbles (k : nibbles) : bytes :=
  match k with
  | hi :: lo :: k' =>
      match Byte.of_nat (hi * 16 + lo) with
      | Some b => b :: pack_nibbles k'
      | None => pack_nibbles k'
      end
  | _ => []
  end.

Definition fromNibbles (k : nibbles) : bytes :=
  match rev k with
  | 16 :: k' => pack_nibbles (rev k')
  | _ => pack_nibbles k
  end.

(** Length of the longest common prefix of two nibble lists. *)
Fixpoint lcp (a b : nibbles) : nat :=
  match a, b with
  | x :: a', y :: b' => if x =? y then S (lcp a' b') else 0
  | _, _ => 0
  end.

(** Modelled from the spec: [prefixLen(a, b, off)] is the length of the
    longest common prefix of [a[off:]] and [b], capped at [b.length]. *)
Definition prefixLen (a b : nibbles) (off : nat) : nat := lcp (skipn off a) b.

(** Modelled from the spec: [startsWith(key, prefix, off)] holds iff
    [key.length - off >= prefix.length] and the next [prefix.length]
    nibbles of [key] are [prefix]. *)
Definition startsWith (key prefix : nibbles) (off : nat) : bool :=
  (length prefix <=? length key - off) &&
  (if list_eq_dec Nat.eq_dec (firstn (length prefix) (skipn off key)) prefix
   then true else false).

(** [concat] and [byte] of [lib/common.js]. *)
Definition concat (a b : nibbles) : nibbles := a ++ b.
Definition byte (i : nat) : nibbles := [i].

(** ** The trie object *)

(** The hash collaborator: [hash.size] and [hash.digest]. *)
Record Hash := mkHash {
  hash_size : nat;
  hash_digest : bytes -> bytes
}.

(** The store collaborator: a byte-keyed map ([db.get]; [db.has] is
    presence in it, spec 6). *)
Record Store := mkStore {
  store_get : bytes -> option bytes
}.

Definition store_has (s : Store) (k : bytes) : bool :=
  match store_get s k with Some _ => true | None => false end.

(** The fields of a [Trie] instance. *)
Record Trie := mkTrie {
  hash : Hash;
  emptyRoot : bytes;
  db : option Store;
  originalRoot : bytes;
  root : node;
  cacheGen : nat;
  cacheLimit : nat
}.

Definition set_root (t : Trie) (r : node) : Trie :=
  mkTrie (hash t) (emptyRoot t) (db t) (originalRoot t) r (cacheGen t) (cacheLimit t).

Definition set_opened (t : Trie) (r : bytes) : Trie :=
  mkTrie (hash t) (emptyRoot t) (db t) r (HashNode r) (cacheGen t) (cacheLimit t).

(** [STATE_KEY = Buffer.from([0x73])]. *)
Definition STATE_KEY : bytes := [Byte.x73].

(** [Trie.prototype.flags]: [new NodeFlags(this.cacheGen, true)]. *)
Definition flags (t : Trie) : NodeFlags := mkFlags (cacheGen t) true None.

(** The flags of [n.clone()] after [n.flags.hash = null; n.flags.dirty = true]. *)
Definition dirty_flags (f : NodeFlags) : NodeFlags := mkFlags (flag_gen f) true None.

(** ** [MissingNodeError] ([lib/errors.js]) *)

(** Property access [o[f]]; on [undefined] or [null] it throws. *)
Fixpoint assoc (fs : list (string * jsval)) (f : string) : jsval :=
  match fs with
  | [] => JUndefined
  | (g, v) :: fs' => if String.eqb g f then v else assoc fs' f
  end.

Definition js_field (o : jsval) (f : string) : res jsval :=
  match o with
  | JUndefined | JNull => Throw undefined_read
  | JObj fs => Ok (assoc fs f)
  | _ => Ok JUndefined
  end.

Definition js_truthy (v : jsval) : bool :=
  match v with
  | JUndefined | JNull => false
  | JNum z => negb (Z.eqb z 0)
  | _ => true
  end.

(** [a || b], [b] evaluated only when [a] is falsy. *)
Definition js_or (a : jsval) (b : unit -> res jsval) : res jsval :=
  if js_truthy a then Ok a else b tt.

(** [v >>> 0]; a value that is not a number converts to [NaN], giving 0. *)
Definition js_uint32 (v : jsval) : Z :=
  match v with JNum z => Z.modulo z (2 ^ 32) | _ => 0%Z end.

(** [v.toString('hex')] as used for the message: a Buffer prints as hex,
    a number rejects the radix ['hex'], [undefined] and [null] throw. *)
Definition js_toString_hex (v : jsval) : res unit :=
  match v with
  | JUndefined | JNull => Throw undefined_read
  | JNum _ => Throw (RangeError "toString() radix must be between 2 and 36")
  | _ => Ok tt
  end.

(** [new MissingNodeError(hash, options = {})]: the exception built, or
    the exception thrown while building it. *)
Definition new_MissingNodeError (hash : jsval) (options : jsval) : res exn :=
  let options := match options with JUndefined => JObj [] | o => o end in
  let* rh := js_field options "rootHash" in
  let* rootHash := js_or rh (fun _ => js_field hash "size") in
  let* nh := js_field options "nodeHash" in
  let* nodeHash := js_or nh (fun _ => js_field hash "size") in
  let* ok := js_field options "key" in
  let key := if js_truthy ok
             then match ok with
                  | JNibs k => JBuf (fromNibbles k)
                  | JBuf b => JBuf (fromNibbles (map Byte.to_nat b))
                  | v => v
                  end
             else JNull in
  let* op := js_field options "pos" in
  let pos := js_uint32 op in
  let* _ := js_toString_hex nodeHash in
  Ok (MissingNodeError rootHash nodeHash key pos).

(** [throw new MissingNodeError(...)]. *)
Definition throw_new {A} (e : res exn) : res A :=
  match e with Ok x => Throw x | Throw x => Throw x end.

(** ** The trie engine ([class Trie]) *)

(** [Buffer.from(s, 'hex')]: pairs of hex digits, up to the first pair
    that is not one. *)
Definition hex_val (c : Ascii.ascii) : option nat :=
  let n := Ascii.nat_of_ascii c in
  if (48 <=? n) && (n <=? 57) then Some (n - 48)
  else if (97 <=? n) && (n <=? 102) then Some (n - 87)
  else if (65 <=? n) && (n <=? 70) then Some (n - 55)
  else None.

Fixpoint hex_decode_list (l : list Ascii.ascii) : bytes :=
  match l with
  | a :: b :: l' =>
      match hex_val a, hex_val b with
      | Some x, Some y =>
          match Byte.of_nat (x * 16 + y) with
          | Some z => z :: hex_decode_list l'
          | None => []
          end
      | _, _ => []
      end
  | _ => []
  end.

Definition hex_decode (s : string) : bytes := hex_decode_list (list_ascii_of_string s).

(** The argument of [open(root)]: absent, a hex string or a Buffer. *)
Inductive root_arg :=
| RootNone
| RootHex (s : string)
| RootBuf (b : bytes).

(** A batch, by the writes [batch.put(key, value)] made to it, in order. *)
Definition write := (bytes * bytes)%type.

(** [new Hasher(hash, cacheGen, cacheLimit).hashRoot(root, batch, true)]
    ([lib/hasher.js], a collaborator): the digest of the returned Hash
    node, the cached tree, and the writes it puts into [batch]. *)
Definition HasherFn :=
  Hash -> nat -> nat -> node -> option (list write) -> bytes * node * list write.

Section Engine.

(** [decodeNode(raw, hash)] of [lib/nodes.js] (the codec, a collaborator);
    it throws on bytes that are no node. *)
Variable decodeNode : bytes -> res node.

(** [encode(node)] of the codec. *)
Variable encodeNode : node -> bytes.

(** Modelled from the spec: [emptyRoot(hash)] of [lib/common.js], the
    digest of the encoding of [Null] (spec 6, "The empty root equals
    hash(encode(Null))"). *)
Definition common_emptyRoot (h : Hash) : bytes := hash_digest h (encodeNode NullNode).

(** [new Trie(hash, db, limit)]. *)
Definition new_Trie (h : Hash) (d : option Store) (limit : option nat) : Trie :=
  let limit := match limit with Some l => l | None => 4 end in
  mkTrie h (common_emptyRoot h) d (common_emptyRoot h) NIL 0 limit.

(** [resolveHash(n, key, pos)] on the Hash node [n] of digest [n.data = d]. *)
Definition resolveHash (t : Trie) (d : bytes) (key : nibbles) (pos : nat) : res node :=
  match db t with
  | None => Throw (Error "Cannot resolve hash without database.")
  | Some s =>
      match store_get s d with
      | None =>
          throw_new (new_MissingNodeError
            (JObj [("rootHash"%string, JBuf (originalRoot t)); ("nodeHash"%string, JBuf d);
                   ("key"%string, JNibs key); ("pos"%string, JNum (Z.of_nat pos))]) JUndefined)
      | Some raw => decodeNode raw
      end
  end.

(** [resolve(n, key, index)]. *)
Definition resolve (t : Trie) (n : node) (key : nibbles) (index : nat) : res node :=
  match n with
  | HashNode d => resolveHash t d (concat key (byte index)) (length key)
  | Undefined => Throw undefined_read
  | _ => Ok n
  end.

(** A recursive call of [_get], [_insert] or [_remove] on [undefined]:
    the assertion on [pos], then [n.type] (or [n.isValue()]) throws. *)
Definition undefined_call {A} (key : nibbles) (pos : nat) : res A :=
  js_assert (pos <=? length key) (Throw undefined_read).

(** The recursive methods take [fuel]: a bound on the number of Hash nodes
    resolved along one walk (the source recurses into each decoded node
    without a bound).  Between two resolutions they recurse structurally. *)

(** [_get(n, key, pos)]: [[val, node, resolved]]. *)
Fixpoint _get (t : Trie) (fuel : nat) {struct fuel}
  : node -> nibbles -> nat -> res (option bytes * node * bool) :=
  fix go (n : node) (key : nibbles) (pos : nat) {struct n} :=
  js_assert (pos <=? length key)
  (match n with
   | NullNode => Ok (None, NIL, false)
   | ValueNode d => Ok (Some d, n, false)
   | ShortNode k c f =>
       if negb (startsWith key k pos) then Ok (None, n, false)
       else
         let* '(val, nn, rs) := go c key (pos + length k) in
         if rs then Ok (val, ShortNode k nn f, rs) else Ok (val, n, rs)
   | FullNode ch f =>
       let i := nth_error key pos in
       let* '(val, nn, rs) :=
         match i with
         | Some i => nth_app (fun c => go c key (S pos)) (undefined_call key (S pos)) ch i
         | None => undefined_call key (S pos)
         end in
       if rs then Ok (val, FullNode (js_set ch i nn) f, rs) else Ok (val, n, rs)
   | HashNode d =>
       match fuel with
       | O => Throw OutOfFuel
       | S fuel' =>
           let* child := resolveHash t d key pos in
           let* '(val, nn, _) := _get t fuel' child key pos in
           Ok (val, nn, true)
       end
   | Undefined => Throw undefined_read
   end).

(** [_insert(NIL, key, pos, value)], as called by the split of a Short. *)
Definition _insert_nil (t : Trie) (key : nibbles) (pos : nat) (value : node)
  : res (bool * node) :=
  js_assert (pos <=? length key)
  (if length key - pos =? 0 then Ok (true, value)
   else Ok (true, ShortNode (skipn pos key) value (flags t))).

(** [_insert(n, key, pos, value)]: [[changed, node]]. *)
Fixpoint _insert (t : Trie) (fuel : nat) {struct fuel}
  : node -> nibbles -> nat -> node -> res (bool * node) :=
  fix go (n : node) (key : nibbles) (pos : nat) (value : node) {struct n} :=
  js_assert (pos <=? length key)
  (if length key - pos =? 0 then
     match n with
     | ValueNode d =>
         match value with
         | ValueNode vd | HashNode vd => Ok (negb (bytes_eqb d vd), value)
         | _ => Throw (TypeError "The otherBuffer argument must be a Buffer")
         end
     | Undefined => Throw undefined_read
     | _ => Ok (true, value)
     end
   else
     match n with
     | ShortNode k c f =>
         let ml := prefixLen key k pos in
         if ml =? length k then
           let* '(d, nn) := go c key (pos + ml) value in
           if negb d then Ok (false, n) else Ok (true, ShortNode k nn (flags t))
         else
           let* '(_, n1) := _insert_nil t k (ml + 1) c in
           let* '(_, n2) := _insert_nil t key (pos + ml + 1) value in
           let branch := js_set (js_set fullNode_children (nth_error k ml) n1)
                                (nth_error key (pos + ml)) n2 in
           if ml =? 0 then Ok (true, FullNode branch (flags t))
           else Ok (true, ShortNode (firstn ml (skipn pos key))
                                    (FullNode branch (flags t)) (flags t))
     | FullNode ch f =>
         let i := nth_error key pos in
         let* '(d, nn) :=
           match i with
           | Some i => nth_app (fun c => go c key (S pos) value)
                               (undefined_call key (S pos)) ch i
           | None => undefined_call key (S pos)
           end in
         if negb d then Ok (false, n)
         else Ok (true, FullNode (js_set ch i nn) (dirty_flags f))
     | NullNode => Ok (true, ShortNode (skipn pos key) value (flags t))
     | HashNode d =>
         match fuel with
         | O => Throw OutOfFuel
         | S fuel' =>
             let* rn := resolveHash t d key pos in
             let* '(d', nn) := _insert t fuel' rn key pos value in
             if negb d' then Ok (false, rn) else Ok (true, nn)
         end
     | ValueNode _ => Throw (Error "Invalid node type.")
     | Undefined => Throw undefined_read
     end).

(** The scan of the 17 slots in the [FULLNODE] case of [_remove]:
    [-1] none non-Null, [-2] two or more, otherwise the only index. *)
Fixpoint scan_slots (ch : list node) (is : list nat) (index : Z) : res Z :=
  match is with
  | [] => Ok index
  | i :: is' =>
      match nth i ch Undefined with
      | Undefined => Throw undefined_read
      | NullNode => scan_slots ch is' index
      | _ => if (index =? -1)%Z then scan_slots ch is' (Z.of_nat i) else Ok (-2)%Z
      end
  end.

(** [_remove(n, key, pos)]: [[found, node]]. *)
Fixpoint _remove (t : Trie) (fuel : nat) {struct fuel}
  : node -> nibbles -> nat -> res (bool * node) :=
  fix go (n : node) (key : nibbles) (pos : nat) {struct n} :=
  js_assert (pos <=? length key)
  (match n with
   | ShortNode k c f =>
       let ml := prefixLen key k pos in
       if ml <? length k then Ok (false, n)
       else if ml =? length key - pos then Ok (true, NIL)
       else
         let* '(d, nn) := go c key (pos + length k) in
         if negb d then Ok (false, n)
         else
           match nn with
           | ShortNode k2 v2 _ => Ok (true, ShortNode (concat k k2) v2 (flags t))
           | Undefined => Throw undefined_read
           | _ => Ok (true, ShortNode k nn (flags t))
           end
   | FullNode ch f =>
       let i := nth_error key pos in
       let* '(d, nn) :=
         match i with
         | Some i => nth_app (fun c => go c key (S pos)) (undefined_call key (S pos)) ch i
         | None => undefined_call key (S pos)
         end in
       if negb d then Ok (false, n)
       else
         let ch' := js_set ch i nn in
         let* index := scan_slots ch' (seq 0 17) (-1)%Z in
         if (0 <=? index)%Z then
           let j := Z.to_nat index in
           let last := Ok (true, ShortNode (byte j) (nth j ch' Undefined) (flags t)) in
           if negb (index =? 16)%Z then
             let* child := resolve t (nth j ch' Undefined) key j in
             match child with
             | ShortNode k2 v2 _ => Ok (true, ShortNode (concat (byte j) k2) v2 (flags t))
             | Undefined => Throw undefined_read
             | _ => last
             end
           else last
         else Ok (true, FullNode ch' (dirty_flags f))
   | ValueNode _ => Ok (true, NIL)
   | NullNode => Ok (false, NIL)
   | HashNode d =>
       match fuel with
       | O => Throw OutOfFuel
       | S fuel' =>
           let* rn := resolveHash t d key pos in
           let* '(d', nn) := _remove t fuel' rn key pos in
           if negb d' then Ok (false, rn) else Ok (true, nn)
       end
   | Undefined => Throw undefined_read
   end).

(** [get(key)]. *)
Definition get (t : Trie) (fuel : nat) (key : bytes) : res (option bytes * Trie) :=
  let k := toNibbles key in
  let* '(val, r, rs) := _get t fuel (root t) k 0 in
  Ok (val, if rs then set_root t r else t).

(** [insert(key, value)]. *)
Definition insert (t : Trie) (fuel : nat) (key value : bytes) : res Trie :=
  let k := toNibbles key in
  let node := ValueNode value in
  let* '(_, r) := _insert t fuel (root t) k 0 node in
  Ok (set_root t r).

(** [remove(key)]. *)
Definition remove (t : Trie) (fuel : nat) (key : bytes) : res Trie :=
  let k := toNibbles key in
  let* '(_, r) := _remove t fuel (root t) k 0 in
  Ok (set_root t r).

(** [open(root)]. *)
Definition open (t : Trie) (arg : root_arg) : res Trie :=
  let r := match arg with
           | RootNone => None
           | RootHex s => Some (hex_decode s)
           | RootBuf b => Some b
           end in
  let r := match r, db t with
           | None, Some s => store_get s STATE_KEY
           | _, _ => r
           end in
  match r with
  | Some r =>
      if negb (bytes_eqb r (emptyRoot t)) then
        js_assert (length r =? hash_size (hash t))
        (match db t with
         | None => Throw (Error "Cannot use root without database.")
         | Some s =>
             if negb (store_has s r) then
               throw_new (new_MissingNodeError
                 (JObj [("rootHash"%string, JBuf r); ("nodeHash"%string, JBuf r)]) JUndefined)
             else Ok (set_opened t r)
         end)
      else Ok t
  | None => Ok t
  end.

(** [close()]. *)
Definition close (t : Trie) : Trie :=
  mkTrie (hash t) (emptyRoot t) (db t) (emptyRoot t) NIL 0 (cacheLimit t).

(** [hashRoot(batch)]: the digest of the Hash node returned, the cached
    tree and the writes put into the batch. *)
Definition hashRoot (Hasher : HasherFn) (t : Trie) (batch : option (list write))
  : res (bytes * node * list write) :=
  match root t with
  | NullNode => Ok (emptyRoot t, NIL, [])
  | Undefined => Throw undefined_read
  | r => Ok (Hasher (hash t) (cacheGen t) (cacheLimit t) r batch)
  end.

(** [rootHash()] (the digest as a Buffer, [enc] not given). *)
Definition rootHash (Hasher : HasherFn) (t : Trie) : res (bytes * Trie) :=
  let* '(h, cached, _) := hashRoot Hasher t None in
  Ok (h, set_root t cached).

(** [commit(batch)] (the digest as a Buffer, [enc] not given): the digest,
    the trie after, and the writes of the batch after. *)
Definition commit (Hasher : HasherFn) (t : Trie) (batch : option (list write))
  : res (bytes * Trie * list write) :=
  match batch with
  | None => Throw AssertionError
  | Some b =>
      let* '(h, cached, ws) := hashRoot Hasher t (Some b) in
      let b := b ++ ws ++ [(STATE_KEY, h)] in
      Ok (h, mkTrie (hash t) (emptyRoot t) (db t) h cached (S (cacheGen t)) (cacheLimit t), b)
  end.

(** [inject(root)]: [root] defaults to [originalRoot]; a hex string is
    decoded. *)
Definition inject (t : Trie) (arg : root_arg) : res Trie :=
  let r := match arg with
           | RootNone => originalRoot t
           | RootHex s => hex_decode s
           | RootBuf b => b
           end in
  js_assert (length r =? hash_size (hash t))
  (let t := mkTrie (hash t) (emptyRoot t) (db t) (emptyRoot t) NIL 0 (cacheLimit t) in
   if negb (bytes_eqb r (emptyRoot t)) then Ok (set_opened t r) else Ok t).

(** [snapshot(root)]: a new trie on the same hash, store and cache limit,
    injected at [root] (by default [originalRoot]). *)
Definition snapshot (t : Trie) (arg : root_arg) : res Trie :=
  let arg := match arg with RootNone => RootBuf (originalRoot t) | a => a end in
  match db t with
  | None => Throw (Error "Cannot snapshot without database.")
  | Some _ => inject (new_Trie (hash t) (db t) (Some (cacheLimit t))) arg
  end.

End Engine.

(** ** Definitions for the statements *)

(** Nibbles below the terminator. *)
Definition nibs (k : nibbles) : Prop := Forall (fun x => x < 16) k.

(** A remaining key: nibbles below 16 closed by the terminator, which is
    what [toNibbles] produces. *)
Inductive vk : nibbles -> Prop :=
| vk_end : vk [16]
| vk_cons x r : x < 16 -> vk r -> vk (x :: r).

Definition is_term (n : node) : Prop := n = NullNode \/ exists d, n = ValueNode d.

(** The shape of a store-free tree met at a position where the rest of the
    key is a [vk] list: Values sit only where the key ends (under a leaf
    Short whose key ends in 16, or in slot 16 of a Full). *)
Inductive wf : node -> Prop :=
| wf_null : wf NullNode
| wf_leaf k d f : vk k -> wf (ShortNode k (ValueNode d) f)
| wf_ext k c f : nibs k -> wf c -> wf (ShortNode k c f)
| wf_full ch f :
    length ch = 17 ->
    (forall i, i < 16 -> wf (nth i ch Undefined)) ->
    is_term (nth 16 ch Undefined) ->
    wf (FullNode ch f).

(** The value a store-free tree holds for the rest [r] of a key. *)
Fixpoint lk (n : node) (r : nibbles) : option bytes :=
  match n with
  | ValueNode d => Some d
  | ShortNode k c _ => if startsWith r k 0 then lk c (skipn (length k) r) else None
  | FullNode ch _ =>
      match r with
      | [] => None
      | i :: r' => nth_app (fun c => lk c r') None ch i
      end
  | _ => None
  end.

(** A sequence of mutations of the map. *)
Inductive op :=
| OpInsert (k v : bytes)
| OpRemove (k : bytes).

Definition op_key (o : op) : bytes :=
  match o with OpInsert k _ => k | OpRemove k => k end.

Section Ops.
Variable decodeNode : bytes -> res node.

Definition apply_op (fuel : nat) (t : Trie) (o : op) : res Trie :=
  match o with
  | OpInsert k v => insert decodeNode t fuel k v
  | OpRemove k => remove decodeNode t fuel k
  end.

Fixpoint apply_ops (fuel : nat) (t : Trie) (os : list op) : res Trie :=
  match os with
  | [] => Ok t
  | o :: os' => let* t' := apply_op fuel t o in apply_ops fuel t' os'
  end.
End Ops.

(** The map semantics of the spec (8.1): the value of the last insert of
    [k] when no remove of [k] follows it, [None] otherwise. *)
Definition expected (os : list op) (k : bytes) : option bytes :=
  match find (fun o => bytes_eqb (op_key o) k) (rev os) with
  | Some (OpInsert _ v) => Some v
  | _ => None
  end.

(** The slots among the 17 of a Full node that are not Null. *)
Definition nonnull_slots (ch : list node) : list nat :=
  filter (fun i => negb (isNull (nth i ch Undefined))) (seq 0 17).

(** The collapse of a Full node after a found removal, as the spec states
    it (4.5): one non-Null slot [i] left gives [Short([16], children[16])]
    for [i = 16], [Short([i] ++ child.key, child.value)] when [children[i]]
    is or resolves to a Short, and [Short([i], children[i])] otherwise;
    with more slots left the dirty Full is kept. *)
Definition full_collapse_spec (decodeNode : bytes -> res node) (t : Trie)
  (key : nibbles) (ch : list node) (f : NodeFlags) : res node :=
  match nonnull_slots ch with
  | [i] =>
      if i =? 16 then Ok (ShortNode [16] (nth 16 ch NullNode) (flags t))
      else
        let* child := resolve decodeNode t (nth i ch NullNode) key i in
        match child with
        | ShortNode k v _ => Ok (ShortNode (i :: k) v (flags t))
        | _ => Ok (ShortNode [i] (nth i ch NullNode) (flags t))
        end
  | _ => Ok (FullNode ch (dirty_flags f))
  end.

(** Induction over nodes, with the slots of a Full node. *)
Fixpoint node_ind' (P : node -> Prop)
  (HN : P NullNode) (HH : forall d, P (HashNode d))
  (HS : forall k c f, P c -> P (ShortNode k c f))
  (HF : forall ch f, Forall P ch -> P (FullNode ch f))
  (HV : forall d, P (ValueNode d)) (HU : P Undefined) (n : node) : P n :=
  match n with
  | NullNode => HN
  | HashNode d => HH d
  | ShortNode k c f => HS k c f (node_ind' P HN HH HS HF HV HU c)
  | FullNode ch f =>
      HF ch f ((fix go (l : list node) : Forall P l :=
                  match l with
                  | [] => Forall_nil P
                  | c :: l' => Forall_cons c (node_ind' P HN HH HS HF HV HU c) (go l')
                  end) ch)
  | ValueNode d => HV d
  | Undefined => HU
  end.

(** A decision procedure for [vk], [nibs], [is_term] and [wf]. *)
Fixpoint vkb (k : nibbles) : bool :=
  match k with
  | [] => false
  | [x] => x =? 16
  | x :: r => (x <? 16) && vkb r
  end.

Definition nibsb (k : nibbles) : bool := forallb (fun x => x <? 16) k.

Definition is_termb (n : node) : bool :=
  match n with NullNode | ValueNode _ => true | _ => false end.

Fixpoint slots_ok (ok : node -> bool) (i : nat) (l : list node) : bool :=
  match l with
  | [] => true
  | c :: l' => (if i <? 16 then ok c else is_termb c) && slots_ok ok (S i) l'
  end.

Fixpoint wfb (n : node) : bool :=
  match n with
  | NullNode => true
  | ShortNode k (ValueNode _) _ => vkb k
  | ShortNode k c _ => nibsb k && wfb c
  | FullNode ch _ => (length ch =? 17) && slots_ok wfb 0 ch
  | _ => false
  end.

(** The shape [_insert] and [_remove] keep below a non-Null root: a leaf
    Short, a non-empty Short over a Full node, or a Full node with at least
    two non-Null slots, where the slots below 16 are Null or of this shape
    and slot 16 is Null or a Value. *)
Inductive cwf : node -> Prop :=
| cwf_leaf k d f : vk k -> cwf (ShortNode k (ValueNode d) f)
| cwf_ext k ch g f : nibs k -> k <> [] -> cwf (FullNode ch g) ->
    cwf (ShortNode k (FullNode ch g) f)
| cwf_full ch f :
    length ch = 17 ->
    (forall i, i < 16 -> nth i ch Undefined <> NullNode -> cwf (nth i ch Undefined)) ->
    is_term (nth 16 ch Undefined) ->
    (exists i j, i < 17 /\ j < 17 /\ i <> j /\
       nth i ch Undefined <> NullNode /\ nth j ch Undefined <> NullNode) ->
    cwf (FullNode ch f).

(** The root of a trie reached by [insert] and [remove] from an empty
    root: Null or of the canonical shape, and every key it holds is the
    nibble form of a byte key. *)
Definition shape_inv (n : node) : Prop :=
  (n = NullNode \/ cwf n) /\ (forall r, vk r -> lk n r <> None -> exists k, r = toNibbles k).

(** The shape of a tree whose Hash nodes are read from the store: as
    [wf], and a Hash node may stand wherever a Short, Full or Null node may,
    when every node the store resolves it to has this shape again. *)
Inductive hwf (decodeNode : bytes -> res node) (t : Trie) : node -> Prop :=
| hwf_null : hwf decodeNode t NullNode
| hwf_leaf k d f : vk k -> hwf decodeNode t (ShortNode k (ValueNode d) f)
| hwf_ext k c f : nibs k -> hwf decodeNode t c -> hwf decodeNode t (ShortNode k c f)
| hwf_full ch f :
    length ch = 17 ->
    (forall i, i < 16 -> hwf decodeNode t (nth i ch Undefined)) ->
    is_term (nth 16 ch Undefined) ->
    hwf decodeNode t (FullNode ch f)
| hwf_hash d :
    (forall key pos rn, resolveHash decodeNode t d key pos = Ok rn -> hwf decodeNode t rn) ->
    hwf decodeNode t (HashNode d).

(** The value part of [get(key)]: what the trie maps [key] to. *)
Definition get_value (decodeNode : bytes -> res node) (t : Trie) (fuel : nat) (key : bytes)
  : res (option bytes) :=
  let* '(v, _) := get decodeNode t fuel key in Ok v.

(** ** Example collaborators

    A one-byte digest function, a constant encoder, a decoder that reads a
    one-byte record as a leaf of key [0x01], a store holding one node
    (digest [0x0a]) and a committed state, and a Hasher returning a fixed
    digest: the concrete inputs at which the statements are evaluated. *)

Definition ex_hash : Hash := mkHash 1 (fun _ => [Byte.x00]).

Definition ex_encode (n : node) : bytes := [].

Definition ex_decode (raw : bytes) : res node :=
  match raw with
  | [b] => Ok (ShortNode (toNibbles [Byte.x01]) (ValueNode [b]) (mkFlags 0 false None))
  | _ => Throw (Error "Invalid node.")
  end.

Definition ex_store : Store :=
  mkStore (fun k => if bytes_eqb k [Byte.x0a] then Some [Byte.x02]
                    else if bytes_eqb k STATE_KEY then Some [Byte.x0a] else None).

Definition ex_trie (d : option Store) : Trie := new_Trie ex_encode ex_hash d None.

(** A trie opened at the stored root [0x0a]: its root is [Hash(0x0a)]. *)
Definition ex_opened : Trie := set_opened (ex_trie (Some ex_store)) [Byte.x0a].

Definition ex_Hasher : HasherFn :=
  fun _ _ _ _ _ => ([Byte.x0f], HashNode [Byte.x0f], [([Byte.x0f], [Byte.x01])]).

(** The slots of a Full node with leaves below slots 1 and 3. *)
Definition ex_children : list node :=
  [NIL; ShortNode [2; 16] (ValueNode [Byte.x01]) (mkFlags 0 false None); NIL;
   ShortNode [4; 16] (ValueNode [Byte.x02]) (mkFlags 0 false None);
   NIL; NIL; NIL; NIL; NIL; NIL; NIL; NIL; NIL; NIL; NIL; NIL; NIL].

Definition ex_full : node := FullNode ex_children (mkFlags 0 false None).

(** The leaf [ex_decode] reads from the stored record [0x02]. *)
Definition ex_leaf : node :=
  ShortNode (toNibbles [Byte.x01]) (ValueNode [Byte.x02]) (mkFlags 0 false None).

(** A Full root with a leaf below slot 3 and, below slot 1, an extension
    [2] whose child is the stored node [Hash(0x0a)]: the key [0x12 0x01]
    reaches the stored leaf. *)
Definition ex_hash_child : node :=
  FullNode [NIL; ShortNode [2] (HashNode [Byte.x0a]) (mkFlags 0 false None); NIL;
            ShortNode [4; 16] (ValueNode [Byte.x02]) (mkFlags 0 false None);
            NIL; NIL; NIL; NIL; NIL; NIL; NIL; NIL; NIL; NIL; NIL; NIL; NIL]
           (mkFlags 0 false None).

Definition ex_hash_child_trie : Trie := set_root (ex_trie (Some ex_store)) ex_hash_child.

(** A trie whose root is [ex_full] (leaves below slots 1 and 3). *)
Definition ex_full_trie : Trie := set_root (ex_trie None) ex_full.

(** * Proofs *)

Section Proofs.

Variable decodeNode : bytes -> res node.

(** ** Unfolding the recursive methods *)

Lemma _get_eq t fuel n key pos :
  _get decodeNode t fuel n key pos =
  js_assert (pos <=? length key)
  (match n with
   | NullNode => Ok (None, NIL, false)
   | ValueNode d => Ok (Some d, n, false)
   | ShortNode k c f =>
       if negb (startsWith key k pos) then Ok (None, n, false)
       else
         let* '(val, nn, rs) := _get decodeNode t fuel c key (pos + length k) in
         if rs then Ok (val, ShortNode k nn f, rs) else Ok (val, n, rs)
   | FullNode ch f =>
       let i := nth_error key pos in
       let* '(val, nn, rs) :=
         match i with
         | Some i => nth_app (fun c => _get decodeNode t fuel c key (S pos))
                             (undefined_call key (S pos)) ch i
         | None => undefined_call key (S pos)
         end in
       if rs then Ok (val, FullNode (js_set ch i nn) f, rs) else Ok (val, n, rs)
   | HashNode d =>
       match fuel with
       | O => Throw OutOfFuel
       | S fuel' =>
           let* child := resolveHash decodeNode t d key pos in
           let* '(val, nn, _) := _get decodeNode t fuel' child key pos in
           Ok (val, nn, true)
       end
   | Undefined => Throw undefined_read
   end).
Proof. destruct fuel, n; reflexivity. Qed.

Lemma _insert_eq t fuel n key pos value :
  _insert decodeNode t fuel n key pos value =
  js_assert (pos <=? length key)
  (if length key - pos =? 0 then
     match n with
     | ValueNode d =>
         match value with
         | ValueNode vd | HashNode vd => Ok (negb (bytes_eqb d vd), value)
         | _ => Throw (TypeError "The otherBuffer argument must be a Buffer")
         end
     | Undefined => Throw undefined_read
     | _ => Ok (true, value)
     end
   else
     match n with
     | ShortNode k c f =>
         let ml := prefixLen key k pos in
         if ml =? length k then
           let* '(d, nn) := _insert decodeNode t fuel c key (pos + ml) value in
           if negb d then Ok (false, n) else Ok (true, ShortNode k nn (flags t))
         else
           let* '(_, n1) := _insert_nil t k (ml + 1) c in
           let* '(_, n2) := _insert_nil t key (pos + ml + 1) value in
           let branch := js_set (js_set fullNode_children (nth_error k ml) n1)
                                (nth_error key (pos + ml)) n2 in
           if ml =? 0 then Ok (true, FullNode branch (flags t))
           else Ok (true, ShortNode (firstn ml (skipn pos key))
                                    (FullNode branch (flags t)) (flags t))
     | FullNode ch f =>
         let i := nth_error key pos in
         let* '(d, nn) :=
           match i with
           | Some i => nth_app (fun c => _insert decodeNode t fuel c key (S pos) value)
                               (undefined_call key (S pos)) ch i
           | None => undefined_call key (S pos)
           end in
         if negb d then Ok (false, n)
         else Ok (true, FullNode (js_set ch i nn) (dirty_flags f))
     | NullNode => Ok (true, ShortNode (skipn pos key) value (flags t))
     | HashNode d =>
         match fuel with
         | O => Throw OutOfFuel
         | S fuel' =>
             let* rn := resolveHash decodeNode t d key pos in
             let* '(d', nn) := _insert decodeNode t fuel' rn key pos value in
             if negb d' then Ok (false, rn) else Ok (true, nn)
         end
     | ValueNode _ => Throw (Error "Invalid node type.")
     | Undefined => Throw undefined_read
     end).
Proof. destruct fuel, n; reflexivity. Qed.

Lemma _remove_eq t fuel n key pos :
  _remove decodeNode t fuel n key pos =
  js_assert (pos <=? length key)
  (match n with
   | ShortNode k c f =>
       let ml := prefixLen key k pos in
       if ml <? length k then Ok (false, n)
       else if ml =? length key - pos then Ok (true, NIL)
       else
         let* '(d, nn) := _remove decodeNode t fuel c key (pos + length k) in
         if negb d then Ok (false, n)
         else
           match nn with
           | ShortNode k2 v2 _ => Ok (true, ShortNode (concat k k2) v2 (flags t))
           | Undefined => Throw undefined_read
           | _ => Ok (true, ShortNode k nn (flags t))
           end
   | FullNode ch f =>
       let i := nth_error key pos in
       let* '(d, nn) :=
         match i with
         | Some i => nth_app (fun c => _remove decodeNode t fuel c key (S pos))
                             (undefined_call key (S pos)) ch i
         | None => undefined_call key (S pos)
         end in
       if negb d then Ok (false, n)
       else
         let ch' := js_set ch i nn in
         let* index := scan_slots ch' (seq 0 17) (-1)%Z in
         if (0 <=? index)%Z then
           let j := Z.to_nat index in
           let last := Ok (true, ShortNode (byte j) (nth j ch' Undefined) (flags t)) in
           if negb (index =? 16)%Z then
             let* child := resolve decodeNode t (nth j ch' Undefined) key j in
             match child with
             | ShortNode k2 v2 _ => Ok (true, ShortNode (concat (byte j) k2) v2 (flags t))
             | Undefined => Throw undefined_read
             | _ => last
             end
           else last
         else Ok (true, FullNode ch' (dirty_flags f))
   | ValueNode _ => Ok (true, NIL)
   | NullNode => Ok (false, NIL)
   | HashNode d =>
       match fuel with
       | O => Throw OutOfFuel
       | S fuel' =>
           let* rn := resolveHash decodeNode t d key pos in
           let* '(d', nn) := _remove decodeNode t fuel' rn key pos in
           if negb d' then Ok (false, rn) else Ok (true, nn)
       end
   | Undefined => Throw undefined_read
   end).
Proof. destruct fuel, n; reflexivity. Qed.

(** ** Arrays, lists and nibble keys *)

Lemma nth_app_nth {A} (f : node -> A) (d : A) l i :
  nth_app f d l i = match nth_error l i with Some c => f c | None => d end.
Proof. revert i; induction l as [|c l IH]; intros [|i]; simpl; auto. Qed.

Lemma length_js_set_nat l i x : i < length l -> length (js_set_nat l i x) = length l.
Proof.
  revert i; induction l as [|c l IH]; intros [|i] H; simpl in *; try lia; auto.
  rewrite IH; lia.
Qed.

Lemma nth_js_set_nat l i x j d : i < length l ->
  nth j (js_set_nat l i x) d = if j =? i then x else nth j l d.
Proof.
  revert i j; induction l as [|c l IH]; intros [|i] [|j] H; simpl in *; try lia; auto.
  apply IH; lia.
Qed.

Lemma nth_error_js_set_nat l i x j : i < length l ->
  nth_error (js_set_nat l i x) j = if j =? i then Some x else nth_error l j.
Proof.
  revert i j; induction l as [|c l IH]; intros [|i] [|j] H; simpl in *; try lia; auto.
  apply IH; lia.
Qed.

Lemma skipn_nonempty_lt (key : nibbles) pos : skipn pos key <> [] -> pos < length key.
Proof.
  intros H. destruct (Nat.lt_ge_cases pos (length key)) as [|Hge]; auto.
  exfalso; apply H, skipn_all2; auto.
Qed.

Lemma skipn_cons_nth (key : nibbles) pos i r :
  skipn pos key = i :: r -> nth_error key pos = Some i /\ skipn (S pos) key = r.
Proof.
  intros H. split.
  - rewrite <- (Nat.add_0_r pos), <- nth_error_skipn, H; reflexivity.
  - replace (S pos) with (1 + pos) by lia. rewrite <- skipn_skipn, H; reflexivity.
Qed.

Lemma firstn_length_app (k r : nibbles) : firstn (length k) (k ++ r) = k.
Proof. induction k as [|x k IH]; simpl; [reflexivity | now rewrite IH]. Qed.

Lemma skipn_length_app (k r : nibbles) : skipn (length k) (k ++ r) = r.
Proof. induction k as [|x k IH]; simpl; auto. Qed.

Lemma startsWith_skipn key k pos : startsWith key k pos = startsWith (skipn pos key) k 0.
Proof. unfold startsWith. rewrite length_skipn. simpl. now rewrite Nat.sub_0_r. Qed.

Lemma startsWith_app r k : startsWith r k 0 = true <-> exists r', r = k ++ r'.
Proof.
  unfold startsWith; simpl. split.
  - intros H. apply andb_prop in H as [_ H].
    destruct (list_eq_dec Nat.eq_dec (firstn (length k) r) k) as [E|]; [|discriminate].
    exists (skipn (length k) r). rewrite <- E at 1. symmetry; apply firstn_skipn.
  - intros [r' ->]. rewrite firstn_length_app, length_app, Nat.sub_0_r.
    destruct (list_eq_dec Nat.eq_dec k k) as [_|n]; [|congruence].
    apply andb_true_intro; split; auto. apply Nat.leb_le; lia.
Qed.

Lemma startsWith_app_false r k : startsWith r k 0 = false -> forall r', r <> k ++ r'.
Proof.
  intros H r' E. assert (startsWith r k 0 = true) by (apply startsWith_app; eauto).
  congruence.
Qed.

(** ** Remaining keys *)

Lemma vk_nonempty r : vk r -> r <> [].
Proof. destruct 1; discriminate. Qed.

Lemma vk_inv i r : vk (i :: r) -> (i = 16 /\ r = []) \/ (i < 16 /\ vk r).
Proof. inversion 1; subst; auto. Qed.

Lemma vk_app p r : nibs p -> vk r -> vk (p ++ r).
Proof. induction 1; simpl; auto. intros; constructor; auto. Qed.

Lemma vk_app_inv p r : nibs p -> vk (p ++ r) -> vk r.
Proof.
  induction 1 as [|x p Hx Hp IH]; simpl; auto.
  intros H. apply vk_inv in H as [[-> _] | [_ H]]; [lia | auto].
Qed.

Lemma vk_prefix_free a b : vk a -> vk (a ++ b) -> b = [].
Proof.
  induction 1 as [|x r Hx Hr IH]; simpl; intros H.
  - apply vk_inv in H as [[_ ->] | [H _]]; [reflexivity | lia].
  - apply vk_inv in H as [[_ E] | [_ H]]; auto.
    apply app_eq_nil in E as [-> _]. exfalso; inversion Hr.
Qed.

Lemma vk_not_nibs r : vk r -> ~ nibs r.
Proof.
  induction 1 as [|x r Hx Hr IH]; intros Hn; inversion Hn; subst; [lia | auto].
Qed.

Lemma vk_bound r x : vk r -> In x r -> x <= 16.
Proof.
  induction 1 as [|y r Hy Hr IH]; simpl; intros [<- | Hin]; try lia; auto.
Qed.

Lemma nibs_app p q : nibs (p ++ q) <-> nibs p /\ nibs q.
Proof. unfold nibs. apply Forall_app. Qed.

(** The rest of a key is a [vk] list after a nibble prefix of it. *)
Lemma vk_after p r : nibs p -> vk (p ++ r) -> vk r /\ r <> [].
Proof. intros Hp H. pose proof (vk_app_inv p r Hp H). split; auto. now apply vk_nonempty. Qed.

(** [lcp] splits two lists into their common prefix and distinct rests. *)
Lemma lcp_spec (a b : nibbles) : exists p a' b',
  a = p ++ a' /\ b = p ++ b' /\ length p = lcp a b /\
  (forall x y a'' b'', a' = x :: a'' -> b' = y :: b'' -> x <> y).
Proof.
  revert b; induction a as [|x a IH]; intros b.
  - exists [], [], b. repeat split; auto. intros ? ? ? ? E; discriminate.
  - destruct b as [|y b].
    + exists [], (x :: a), []. repeat split; auto. intros ? ? ? ? _ E; discriminate.
    + simpl. destruct (Nat.eqb_spec x y) as [<-|Hxy].
      * destruct (IH b) as (p & a' & b' & -> & -> & Hl & Hd).
        exists (x :: p), a', b'. repeat split; simpl; auto.
      * exists [], (x :: a), (y :: b). repeat split; auto.
        intros ? ? ? ? E1 E2; inversion E1; inversion E2; subst; auto.
Qed.

(** ** The lookup of a store-free tree *)

Lemma js_assert_true {A} (k : res A) : js_assert true k = k.
Proof. reflexivity. Qed.

Lemma lk_short_app k c f r : lk (ShortNode k c f) (k ++ r) = lk c r.
Proof.
  simpl. replace (startsWith (k ++ r) k 0) with true by (symmetry; apply startsWith_app; eauto).
  now rewrite skipn_length_app.
Qed.

Lemma lk_short_self k c f : lk (ShortNode k c f) k = lk c [].
Proof. pose proof (lk_short_app k c f []) as H. now rewrite app_nil_r in H. Qed.

Lemma lk_short_other k c f r : (forall r', r <> k ++ r') -> lk (ShortNode k c f) r = None.
Proof.
  intros H. simpl. destruct (startsWith r k 0) eqn:E; auto.
  apply startsWith_app in E as [r' E]. exfalso; eapply H; eauto.
Qed.

Lemma lk_full ch f i r :
  lk (FullNode ch f) (i :: r) = match nth_error ch i with Some c => lk c r | None => None end.
Proof. simpl. apply nth_app_nth. Qed.

Lemma nth_error_17 (ch : list node) i :
  length ch = 17 -> i < 17 -> nth_error ch i = Some (nth i ch Undefined).
Proof. intros. apply nth_error_nth'. lia. Qed.

Lemma pos_lt_of_vk (key : nibbles) pos : vk (skipn pos key) -> (pos <=? length key) = true.
Proof.
  intros Hv. apply Nat.leb_le.
  pose proof (skipn_nonempty_lt key pos (vk_nonempty _ Hv)). lia.
Qed.

Lemma get_term t fuel n key : is_term n ->
  _get decodeNode t fuel n key (length key) = Ok (lk n [], n, false).
Proof. intros [-> | [d ->]]; rewrite _get_eq, Nat.leb_refl; reflexivity. Qed.

(** On a well-formed store-free tree [_get] computes [lk] and changes
    nothing. *)
Lemma get_wf t fuel n : wf n -> forall key pos, vk (skipn pos key) ->
  _get decodeNode t fuel n key pos = Ok (lk n (skipn pos key), n, false).
Proof.
  induction 1 as [| k d f Hk | k c f Hk Hc IH | ch f Hlen Hch IH Hterm];
    intros key pos Hv; rewrite _get_eq, (pos_lt_of_vk key pos Hv), js_assert_true.
  - reflexivity.
  - rewrite startsWith_skipn. destruct (startsWith (skipn pos key) k 0) eqn:E.
    + apply startsWith_app in E as [r' E].
      rewrite E in Hv. pose proof (vk_prefix_free _ _ Hk Hv) as ->.
      rewrite app_nil_r in E.
      assert (Hl : pos + length k = length key).
      { pose proof (length_skipn pos key) as L. rewrite E in L.
        pose proof (skipn_nonempty_lt key pos) as L2. rewrite E in L2.
        specialize (L2 (vk_nonempty _ Hk)). lia. }
      rewrite Hl, get_term by (right; eauto). rewrite E, lk_short_self. reflexivity.
    + simpl. rewrite E. reflexivity.
  - rewrite startsWith_skipn. destruct (startsWith (skipn pos key) k 0) eqn:E.
    + apply startsWith_app in E as [r' E].
      rewrite E in Hv. destruct (vk_after _ _ Hk Hv) as [Hv' _].
      assert (Hs : skipn (pos + length k) key = r').
      { rewrite Nat.add_comm, <- skipn_skipn, E. apply skipn_length_app. }
      rewrite IH by (rewrite Hs; exact Hv').
      rewrite Hs, E, lk_short_app. reflexivity.
    + simpl. rewrite E. reflexivity.
  - destruct (skipn pos key) as [|i r] eqn:E; [inversion Hv|].
    destruct (skipn_cons_nth key pos i r E) as [Hi Hr]. rewrite Hi.
    cbv beta iota zeta.
    apply vk_inv in Hv as [[-> ->] | [Hi16 Hv]].
    + rewrite nth_app_nth, nth_error_17 by lia.
      assert (S pos = length key).
      { pose proof (length_skipn pos key) as L. rewrite E in L. simpl in L.
        pose proof (length_skipn (S pos) key) as L2. rewrite Hr in L2. simpl in L2. lia. }
      rewrite H, get_term by exact Hterm.
      rewrite lk_full, nth_error_17 by lia. reflexivity.
    + rewrite nth_app_nth, nth_error_17 by lia.
      rewrite IH by (auto; rewrite Hr; exact Hv).
      rewrite lk_full, nth_error_17 by lia. rewrite Hr. reflexivity.
Qed.


Lemma lk_short_cases k c f r :
  (exists r', r = k ++ r' /\ lk (ShortNode k c f) r = lk c r') \/
  ((forall r', r <> k ++ r') /\ lk (ShortNode k c f) r = None).
Proof.
  destruct (startsWith r k 0) eqn:E.
  - left. apply startsWith_app in E as [r' ->]. exists r'. split; auto. apply lk_short_app.
  - right. split; [now apply startsWith_app_false|]. simpl. now rewrite E.
Qed.

Lemma lk_short_nil c f q : lk (ShortNode [] c f) q = lk c q.
Proof. apply (lk_short_app [] c f q). Qed.

Lemma lk_short_prefix p k c f f' q :
  lk (ShortNode (p ++ k) c f) (p ++ q) = lk (ShortNode k c f') q.
Proof.
  destruct (lk_short_cases k c f' q) as [[q' [-> E]] | [Hn E]]; rewrite E.
  - rewrite app_assoc. apply lk_short_app.
  - apply lk_short_other. intros r' Hr. rewrite <- app_assoc in Hr.
    apply app_inv_head in Hr. eapply Hn; eauto.
Qed.

Lemma lk_short_head_ne x b c f j q : x <> j -> lk (ShortNode (x :: b) c f) (j :: q) = None.
Proof. intros H. apply lk_short_other. intros r' E. inversion E; auto. Qed.

Lemma lk_short_merge k k2 v f f' f'' r :
  lk (ShortNode (k ++ k2) v f) r = lk (ShortNode k (ShortNode k2 v f') f'') r.
Proof.
  destruct (lk_short_cases k (ShortNode k2 v f') f'' r) as [[r1 [-> E]] | [Hn E]]; rewrite E.
  - apply lk_short_prefix.
  - apply lk_short_other. intros r' Hr. rewrite <- app_assoc in Hr. eapply Hn; eauto.
Qed.

Lemma lk_leaf_other k c f r : vk k -> vk r -> r <> k -> lk (ShortNode k c f) r = None.
Proof.
  intros Hk Hr Hne. apply lk_short_other. intros r' ->.
  rewrite (vk_prefix_free _ _ Hk Hr), app_nil_r in Hne. auto.
Qed.

Lemma lk_full_nth ch f j q : length ch = 17 -> j < 17 ->
  lk (FullNode ch f) (j :: q) = lk (nth j ch Undefined) q.
Proof. intros. rewrite lk_full, nth_error_17; auto. Qed.

Lemma vk_head_bound j q : vk (j :: q) -> j < 17.
Proof. intros H. pose proof (vk_bound _ j H (or_introl eq_refl)). lia. Qed.

Lemma vk_nibs_prefix p x b : vk (p ++ x :: b) -> nibs p.
Proof.
  induction p as [|z p IH]; simpl; intros H; [constructor|].
  apply vk_inv in H as [[_ H] | [Hz H]]; [destruct p; discriminate|].
  constructor; auto. now apply IH.
Qed.

Lemma lcp_app_self k a : lcp (k ++ a) k = length k.
Proof. induction k as [|x k IH]; simpl; [destruct a; reflexivity|]. now rewrite Nat.eqb_refl, IH. Qed.

Lemma lcp_split p x y a b : x <> y -> lcp (p ++ y :: a) (p ++ x :: b) = length p.
Proof.
  intros H. induction p as [|z p IH]; simpl.
  - apply Nat.eqb_neq in H. now rewrite Nat.eqb_sym, H.
  - now rewrite Nat.eqb_refl, IH.
Qed.

Lemma rest_nz (key : nibbles) pos : skipn pos key <> [] -> (length key - pos =? 0) = false.
Proof. intros H. apply Nat.eqb_neq. pose proof (skipn_nonempty_lt key pos H). lia. Qed.

Lemma pos_le_of_ne (key : nibbles) pos : skipn pos key <> [] -> (pos <=? length key) = true.
Proof. intros H. apply Nat.leb_le. pose proof (skipn_nonempty_lt key pos H). lia. Qed.

Lemma skipn_add_app (key : nibbles) pos p r :
  skipn pos key = p ++ r -> skipn (pos + length p) key = r.
Proof. intros E. rewrite Nat.add_comm, <- skipn_skipn, E. apply skipn_length_app. Qed.

Lemma nth_error_add_app (key : nibbles) pos p y r :
  skipn pos key = p ++ y :: r -> nth_error key (pos + length p) = Some y.
Proof. intros E. apply skipn_add_app in E. now apply skipn_cons_nth in E. Qed.

Lemma insert_nil_eq t l m c : m <= length l ->
  _insert_nil t l m c =
  Ok (true, match skipn m l with [] => c | _ => ShortNode (skipn m l) c (flags t) end).
Proof.
  intros H. unfold _insert_nil. replace (m <=? length l) with true by (symmetry; now apply Nat.leb_le).
  rewrite js_assert_true. pose proof (length_skipn m l) as L.
  destruct (skipn m l) eqn:E; simpl in L.
  - replace (length l - m =? 0) with true by (symmetry; apply Nat.eqb_eq; lia). reflexivity.
  - replace (length l - m =? 0) with false by (symmetry; apply Nat.eqb_neq; lia). reflexivity.
Qed.

Lemma length_branch x y n1 n2 : x < 17 -> y < 17 ->
  length (js_set (js_set fullNode_children (Some x) n1) (Some y) n2) = 17.
Proof. intros. simpl. rewrite !length_js_set_nat; rewrite ?length_js_set_nat; simpl; lia. Qed.

Lemma nth_branch x y n1 n2 i : x < 17 -> y < 17 -> i < 17 ->
  nth i (js_set (js_set fullNode_children (Some x) n1) (Some y) n2) Undefined =
  if i =? y then n2 else if i =? x then n1 else NullNode.
Proof.
  intros Hx Hy Hi. simpl.
  rewrite nth_js_set_nat by (rewrite length_js_set_nat; simpl; lia).
  rewrite nth_js_set_nat by (simpl; lia).
  rewrite (nth_indep _ Undefined NIL) by (simpl; lia). unfold fullNode_children.
  now rewrite nth_repeat.
Qed.


(** ** [_insert] on a store-free tree *)

Lemma insert_term t fuel n key v : is_term n ->
  _insert decodeNode t fuel n key (length key) (ValueNode v) =
  Ok (match n with ValueNode d => negb (bytes_eqb d v) | _ => true end, ValueNode v).
Proof. intros [-> | [d ->]]; rewrite _insert_eq, Nat.leb_refl, Nat.sub_diag; reflexivity. Qed.

Lemma insert_short_descend t fuel k c f key pos value a :
  skipn pos key = k ++ a -> k ++ a <> [] ->
  _insert decodeNode t fuel (ShortNode k c f) key pos value =
  let* '(d, nn) := _insert decodeNode t fuel c key (pos + length k) value in
  if negb d then Ok (false, ShortNode k c f) else Ok (true, ShortNode k nn (flags t)).
Proof.
  intros E Ha. assert (Hne : skipn pos key <> []) by (rewrite E; exact Ha).
  rewrite _insert_eq, pos_le_of_ne, js_assert_true, rest_nz by exact Hne.
  cbv beta iota zeta. unfold prefixLen. rewrite E, lcp_app_self, Nat.eqb_refl. reflexivity.
Qed.

Lemma insert_short_split t fuel k c f key pos value p x y a b :
  skipn pos key = p ++ y :: a -> k = p ++ x :: b -> x <> y ->
  _insert decodeNode t fuel (ShortNode k c f) key pos value =
  let n1 := match b with [] => c | _ => ShortNode b c (flags t) end in
  let n2 := match a with [] => value | _ => ShortNode a value (flags t) end in
  let branch := js_set (js_set fullNode_children (Some x) n1) (Some y) n2 in
  Ok (true, match p with
            | [] => FullNode branch (flags t)
            | _ => ShortNode p (FullNode branch (flags t)) (flags t)
            end).
Proof.
  intros E -> Hxy. assert (Hne : skipn pos key <> []) by (rewrite E; destruct p; simpl; congruence).
  rewrite _insert_eq, pos_le_of_ne, js_assert_true, rest_nz by exact Hne.
  cbv beta iota zeta. unfold prefixLen.
  pose proof (nth_error_add_app _ _ _ _ _ E) as Hy.
  assert (Ha : skipn (pos + length p + 1) key = a).
  { replace (pos + length p + 1) with (pos + length (p ++ [y]))
      by (rewrite length_app; simpl; lia).
    apply skipn_add_app. now rewrite <- app_assoc. }
  assert (Hlen : pos + length p + 1 <= length key).
  { pose proof (skipn_nonempty_lt key pos Hne). pose proof (length_skipn pos key) as L.
    rewrite E, length_app in L. simpl in L. lia. }
  rewrite E, lcp_split by auto. rewrite firstn_length_app.
  replace (length p =? length (p ++ x :: b)) with false
    by (symmetry; apply Nat.eqb_neq; rewrite length_app; simpl; lia).
  rewrite insert_nil_eq by (rewrite length_app; simpl; lia).
  rewrite insert_nil_eq by exact Hlen.
  replace (skipn (length p + 1) (p ++ x :: b)) with b
    by (rewrite Nat.add_comm, <- skipn_skipn, skipn_length_app; reflexivity).
  rewrite Ha, Hy, nth_error_app2, Nat.sub_diag by lia. simpl nth_error.
  destruct p; reflexivity.
Qed.


Lemma bytes_eqb_true a b : bytes_eqb a b = true <-> a = b.
Proof. unfold bytes_eqb. destruct (list_eq_dec _ a b); split; congruence. Qed.

Lemma bytes_eqb_refl a : bytes_eqb a a = true.
Proof. now apply bytes_eqb_true. Qed.

Lemma insert_full_eq t fuel ch f key pos value i r :
  length ch = 17 -> skipn pos key = i :: r -> i < 17 ->
  _insert decodeNode t fuel (FullNode ch f) key pos value =
  let* '(d, nn) := _insert decodeNode t fuel (nth i ch Undefined) key (S pos) value in
  if negb d then Ok (false, FullNode ch f)
  else Ok (true, FullNode (js_set_nat ch i nn) (dirty_flags f)).
Proof.
  intros Hl E Hi. assert (Hne : skipn pos key <> []) by (rewrite E; discriminate).
  rewrite _insert_eq, pos_le_of_ne, js_assert_true, rest_nz by exact Hne.
  cbv beta iota zeta. destruct (skipn_cons_nth _ _ _ _ E) as [Hk _].
  rewrite Hk, nth_app_nth, nth_error_17 by lia. reflexivity.
Qed.

Lemma insert_null_eq t fuel key pos value : skipn pos key <> [] ->
  _insert decodeNode t fuel NullNode key pos value =
  Ok (true, ShortNode (skipn pos key) value (flags t)).
Proof.
  intros Hne. rewrite _insert_eq, pos_le_of_ne, js_assert_true, rest_nz by exact Hne.
  reflexivity.
Qed.

Lemma lk_null r : lk NullNode r = None.
Proof. reflexivity. Qed.

(** A slot of a Full node updated with a well-formed node whose lookups
    agree with the old child's except at [r]. *)
Lemma full_update ch f f' i r nn o :
  length ch = 17 -> vk (i :: r) ->
  (forall j, j < 16 -> wf (nth j ch Undefined)) -> is_term (nth 16 ch Undefined) ->
  (i < 16 -> wf nn) -> (i = 16 -> is_term nn) -> lk nn r = o ->
  (forall q, vk (i :: q) -> q <> r -> lk nn q = lk (nth i ch Undefined) q) ->
  wf (FullNode (js_set_nat ch i nn) f') /\
  lk (FullNode (js_set_nat ch i nn) f') (i :: r) = o /\
  (forall q, vk q -> q <> i :: r ->
     lk (FullNode (js_set_nat ch i nn) f') q = lk (FullNode ch f) q).
Proof.
  intros Hl Hv Hch Hterm Hw Ht Hlk Hoth. pose proof (vk_head_bound _ _ Hv) as Hi.
  assert (Hl' : length (js_set_nat ch i nn) = 17) by (rewrite length_js_set_nat; lia).
  split; [|split].
  - constructor; auto.
    + intros j Hj. rewrite nth_js_set_nat by lia.
      destruct (Nat.eqb_spec j i); subst; auto.
    + rewrite nth_js_set_nat by lia. destruct (Nat.eqb_spec 16 i); subst; auto.
  - rewrite lk_full_nth, nth_js_set_nat, Nat.eqb_refl by lia. exact Hlk.
  - intros [|j q] Hq Hne; [destruct (vk_nonempty _ Hq eq_refl)|].
    pose proof (vk_head_bound _ _ Hq).
    rewrite !lk_full_nth, nth_js_set_nat by lia.
    destruct (Nat.eqb_spec j i); subst; auto.
    apply Hoth; auto. congruence.
Qed.

Lemma lk_short_of_nil_match (b : nibbles) c g f q :
  lk (match b with [] => c | _ => ShortNode b c g end) q = lk (ShortNode b c f) q.
Proof. destruct b; [now rewrite lk_short_nil | reflexivity]. Qed.


(** The split of a Short node by [_insert]: the new tree is well formed,
    maps the new key to [v] and agrees with the old one elsewhere. *)
Lemma split_props t v p x y a b c f :
  vk (p ++ y :: a) -> x <> y -> x < 17 ->
  (x < 16 -> wf (match b with [] => c | _ => ShortNode b c (flags t) end)) ->
  (x = 16 -> is_term (match b with [] => c | _ => ShortNode b c (flags t) end)) ->
  let n1 := match b with [] => c | _ => ShortNode b c (flags t) end in
  let n2 := match a with [] => ValueNode v | _ => ShortNode a (ValueNode v) (flags t) end in
  let branch := js_set (js_set fullNode_children (Some x) n1) (Some y) n2 in
  let n' := match p with
            | [] => FullNode branch (flags t)
            | _ => ShortNode p (FullNode branch (flags t)) (flags t)
            end in
  wf n' /\ lk n' (p ++ y :: a) = Some v /\
  (forall q, vk q -> q <> p ++ y :: a -> lk n' q = lk (ShortNode (p ++ x :: b) c f) q).
Proof.
  intros Hv Hxy Hx Hw1 Ht1 n1 n2 branch n'.
  assert (Hp : nibs p) by (eapply vk_nibs_prefix; eauto).
  assert (Hya : vk (y :: a)) by (eapply vk_app_inv; eauto).
  pose proof (vk_head_bound _ _ Hya) as Hy.
  assert (Hlb : length branch = 17) by (apply length_branch; auto).
  assert (Hnb : forall i, i < 17 ->
            nth i branch Undefined = if i =? y then n2 else if i =? x then n1 else NullNode)
    by (intros; apply nth_branch; auto).
  assert (Hn2 : (y < 16 -> wf n2) /\ (y = 16 -> is_term n2) /\ lk n2 a = Some v /\
                (forall q, vk (y :: q) -> q <> a -> lk n2 q = None)).
  { apply vk_inv in Hya as [[-> ->] | [Hy16 Ha]].
    - subst n2. split; [lia | split; [right; eauto | split; [reflexivity|]]].
      intros q Hq Hne. apply vk_inv in Hq as [[_ ->] | [H _]]; [congruence | lia].
    - destruct a as [|z a']; [inversion Ha|]. subst n2.
      split; [intros; constructor; auto | split; [lia | split]].
      + apply lk_short_self.
      + intros q Hq Hne. apply vk_inv in Hq as [[-> _] | [_ Hq]]; [lia|].
        apply lk_leaf_other; auto. }
  destruct Hn2 as (Hw2 & Ht2 & Hl2 & Ho2).
  assert (Hfull : wf (FullNode branch (flags t))).
  { constructor; auto.
    - intros i Hi. rewrite Hnb by lia.
      destruct (Nat.eqb_spec i y); [subst; auto|].
      destruct (Nat.eqb_spec i x); [subst; auto | constructor].
    - rewrite Hnb by lia. destruct (Nat.eqb_spec 16 y); [subst; auto|].
      destruct (Nat.eqb_spec 16 x); [subst; auto | left; reflexivity]. }
  assert (Hlkn : forall q, lk n' q = lk (ShortNode p (FullNode branch (flags t)) (flags t)) q).
  { intros q. subst n'. destruct p; [now rewrite lk_short_nil | reflexivity]. }
  split; [|split].
  - subst n'. destruct p; auto. constructor; auto.
  - rewrite Hlkn, lk_short_app, lk_full_nth, Hnb, Nat.eqb_refl by auto. exact Hl2.
  - intros q Hq Hne. rewrite Hlkn.
    destruct (lk_short_cases p (FullNode branch (flags t)) (flags t) q)
      as [[q1 [-> E]] | [Hn E]]; rewrite E.
    + assert (Hq1 : vk q1) by (eapply vk_app_inv; eauto).
      destruct q1 as [|j q2]; [destruct (vk_nonempty _ Hq1 eq_refl)|].
      pose proof (vk_head_bound _ _ Hq1).
      rewrite lk_full_nth, Hnb, (lk_short_prefix p (x :: b) c f f) by auto.
      destruct (Nat.eqb_spec j y).
      * subst j. rewrite lk_short_head_ne by auto. apply Ho2; auto.
        intros ->. apply Hne; reflexivity.
      * destruct (Nat.eqb_spec j x).
        -- subst j n1. rewrite (lk_short_of_nil_match b c (flags t) f).
           symmetry. apply (lk_short_prefix [x]).
        -- rewrite lk_short_head_ne by auto. reflexivity.
    + symmetry. apply lk_short_other. intros r' Hr. apply (Hn ((x :: b) ++ r')).
      rewrite Hr, <- app_assoc. reflexivity.
Qed.


(** On a well-formed store-free tree [_insert] keeps the tree well formed,
    maps the key to the value, keeps every other key, and reports no change
    (returning the same node) when the key already held the value. *)
Lemma insert_wf t fuel v n : wf n -> forall key pos, vk (skipn pos key) ->
  exists d n', _insert decodeNode t fuel n key pos (ValueNode v) = Ok (d, n') /\ wf n' /\
    lk n' (skipn pos key) = Some v /\
    (forall r, vk r -> r <> skipn pos key -> lk n' r = lk n r) /\
    (lk n (skipn pos key) = Some v -> d = false) /\
    (d = false -> n' = n).
Proof.
  induction 1 as [| k d0 f Hk | k c f Hk Hc IH | ch f Hlen Hch IH Hterm];
    intros key pos Hv; pose proof (vk_nonempty _ Hv) as Hne.
  - (* Null *)
    rewrite insert_null_eq by exact Hne. do 2 eexists. split; [reflexivity|].
    split; [now constructor|]. split; [apply lk_short_self|].
    split; [intros r Hr Hrn; now apply lk_leaf_other|]. split; discriminate.
  - (* leaf *)
    destruct (lcp_spec (skipn pos key) k) as (p & a' & b' & Ha & Hb & _ & Hd).
    destruct b' as [|x b''].
    + rewrite app_nil_r in Hb. subst p.
      rewrite Ha in Hv. pose proof (vk_prefix_free _ _ Hk Hv). subst a'.
      rewrite app_nil_r in Ha, Hv.
      rewrite (insert_short_descend _ _ _ _ _ _ _ _ []) by (rewrite app_nil_r; first [exact Ha | now apply vk_nonempty]).
      assert (Hl : pos + length k = length key).
      { pose proof (length_skipn pos key) as L. rewrite Ha in L.
        pose proof (skipn_nonempty_lt key pos Hne). lia. }
      rewrite Hl, insert_term by (right; eauto). rewrite Ha.
      destruct (bytes_eqb d0 v) eqn:Eb; cbn [negb bind].
      * apply bytes_eqb_true in Eb. subst d0. do 2 eexists. split; [reflexivity|].
        split; [now constructor|]. split; [now rewrite lk_short_self|].
        split; auto.
      * do 2 eexists. split; [reflexivity|].
        split; [now constructor|]. split; [now rewrite lk_short_self|].
        split; [intros r Hr Hrn; now rewrite !lk_leaf_other|].
        split; [|discriminate]. rewrite lk_short_self. simpl. intros E.
        injection E as ->. now rewrite bytes_eqb_refl in Eb.
    + destruct a' as [|y a''].
      * rewrite app_nil_r in Ha. rewrite Ha in Hv. rewrite Hb in Hk.
        pose proof (vk_prefix_free _ _ Hv Hk). discriminate.
      * assert (Hxy : x <> y) by (intros ->; eapply Hd; eauto).
        rewrite (insert_short_split _ _ _ _ _ _ _ _ p x y a'' b'') by auto.
        rewrite Hb in Hk.
        assert (Hxb : vk (x :: b'')) by (eapply vk_app_inv; [eapply vk_nibs_prefix|]; eauto).
        pose proof (vk_head_bound _ _ Hxb) as Hx.
        rewrite Ha in Hv |- *.
        destruct (split_props t v p x y a'' b'' (ValueNode d0) f Hv Hxy Hx) as (W & L & O).
        { intros Hx16. apply vk_inv in Hxb as [[-> _] | [_ Hb'']]; [lia|].
          destruct b''; [inversion Hb''|]. now constructor. }
        { intros ->. apply vk_inv in Hxb as [[_ ->] | [H _]]; [right; eauto | lia]. }
        do 2 eexists. split; [reflexivity|]. split; [exact W|]. split; [exact L|].
        split; [intros; subst; auto|].
        split; [|discriminate]. intros E.
        rewrite Hb, lk_short_prefix with (f' := f), lk_short_head_ne in E by auto. discriminate.
  - (* extension *)
    destruct (lcp_spec (skipn pos key) k) as (p & a' & b' & Ha & Hb & _ & Hd).
    destruct b' as [|x b''].
    + rewrite app_nil_r in Hb. subst p.
      rewrite Ha in Hv. destruct (vk_after _ _ Hk Hv) as [Hva Hna].
      rewrite (insert_short_descend _ _ _ _ _ _ _ _ a') by first [exact Ha | intros Hx; apply app_eq_nil in Hx as [_ Hx]; auto].
      pose proof (skipn_add_app _ _ _ _ Ha) as Hsk.
      destruct (IH key (pos + length k) ltac:(rewrite Hsk; exact Hva))
        as (d & nn & Heq & Hw & Hl & Ho & Hs & Hn).
      rewrite Hsk in Hl, Ho, Hs.
      rewrite Heq, Ha. destruct d; cbn [negb bind].
      * do 2 eexists. split; [reflexivity|].
        split; [now constructor|]. split; [now rewrite lk_short_app|].
        split; [|split; [|discriminate]].
        -- intros q Hq Hqn.
           destruct (lk_short_cases k nn (flags t) q) as [[q1 [-> E]] | [Hqk E]]; rewrite E.
           ++ rewrite lk_short_app. apply Ho; [eapply vk_app_inv; eauto|].
              intros ->. auto.
           ++ symmetry. now apply lk_short_other.
        -- rewrite lk_short_app. auto.
      * specialize (Hn eq_refl). subst nn.
        do 2 eexists. split; [reflexivity|]. split; [now constructor|].
        split; [now rewrite lk_short_app|]. split; auto.
    + destruct a' as [|y a''].
      * rewrite app_nil_r in Ha. rewrite Ha in Hv. rewrite Hb in Hk.
        apply nibs_app in Hk as [Hk _]. exfalso; now apply (vk_not_nibs _ Hv).
      * assert (Hxy : x <> y) by (intros ->; eapply Hd; eauto).
        rewrite (insert_short_split _ _ _ _ _ _ _ _ p x y a'' b'') by auto.
        rewrite Hb in Hk. apply nibs_app in Hk as [_ Hxb]. inversion Hxb; subst.
        rewrite Ha in Hv |- *.
        destruct (split_props t v p x y a'' b'' c f Hv Hxy) as (W & L & O); [lia| |lia|].
        { intros _. destruct b''; auto. now constructor. }
        do 2 eexists. split; [reflexivity|]. split; [exact W|]. split; [exact L|].
        split; [intros; subst; auto|].
        split; [|discriminate]. intros E.
        rewrite lk_short_prefix with (f' := f), lk_short_head_ne in E by auto. discriminate.
  - (* Full *)
    destruct (skipn pos key) as [|i r] eqn:E; [contradiction|].
    pose proof (vk_head_bound _ _ Hv) as Hi.
    rewrite (insert_full_eq _ _ _ _ _ _ _ i r) by auto.
    destruct (skipn_cons_nth _ _ _ _ E) as [_ Hr].
    assert (Hlk : lk (FullNode ch f) (i :: r) = lk (nth i ch Undefined) r)
      by (apply lk_full_nth; auto).
    assert (Hch' : exists d nn, _insert decodeNode t fuel (nth i ch Undefined) key (S pos)
                                  (ValueNode v) = Ok (d, nn) /\
              (i < 16 -> wf nn) /\ (i = 16 -> is_term nn) /\ lk nn r = Some v /\
              (forall q, vk (i :: q) -> q <> r -> lk nn q = lk (nth i ch Undefined) q) /\
              (lk (nth i ch Undefined) r = Some v -> d = false) /\
              (d = false -> nn = nth i ch Undefined)).
    { apply vk_inv in Hv as [[-> ->] | [Hi16 Hv]].
      - assert (Hs : S pos = length key).
        { pose proof (length_skipn pos key) as L. rewrite E in L. simpl in L.
          pose proof (skipn_nonempty_lt key pos ltac:(rewrite E; discriminate)). lia. }
        rewrite Hs, insert_term by exact Hterm.
        do 2 eexists. split; [reflexivity|]. split; [lia|]. split; [right; eauto|].
        split; [reflexivity|].
        split; [intros q Hq Hqn; apply vk_inv in Hq as [[_ ->] | [H _]]; [congruence | lia]|].
        destruct Hterm as [-> | [d ->]]; simpl.
        + split; discriminate.
        + split; [intros Hd; injection Hd as ->; now rewrite bytes_eqb_refl|].
          destruct (bytes_eqb d v) eqn:Eb; simpl; [|discriminate].
          apply bytes_eqb_true in Eb. now subst.
      - destruct (IH i Hi16 key (S pos) ltac:(now rewrite Hr))
          as (d & nn & Heq & Hw & Hl & Ho & Hs & Hn).
        rewrite Hr in Hl, Ho, Hs.
        exists d, nn. split; [exact Heq|]. split; [auto|]. split; [lia|].
        split; [exact Hl|]. split; [|auto].
        intros q Hq Hqn. apply Ho; auto. apply vk_inv in Hq as [[-> _] | [_ Hq]]; [lia | auto]. }
    destruct Hch' as (d & nn & Heq & Hw & Ht & Hl & Ho & Hs & Hn).
    rewrite Heq. destruct d; cbn [negb bind].
    + destruct (full_update ch f (dirty_flags f) i r nn (Some v)) as (W & L & O); auto.
      do 2 eexists. split; [reflexivity|]. split; [exact W|]. split; [exact L|].
      split; [exact O|]. split; [|discriminate]. rewrite Hlk. auto.
    + specialize (Hn eq_refl). subst nn. do 2 eexists. split; [reflexivity|].
      split; [now constructor|]. split; [rewrite Hlk; auto|]. split; auto.
Qed.


(** ** The slot scan and the collapse of [_remove]'s Full case *)

Lemma scan_slots_from ch is j :
  (forall i, In i is -> nth i ch Undefined <> Undefined) ->
  scan_slots ch is (Z.of_nat j) =
  Ok (match filter (fun i => negb (isNull (nth i ch Undefined))) is with
      | [] => Z.of_nat j
      | _ => (-2)%Z
      end).
Proof.
  induction is as [|i is IH]; intros H; [reflexivity|]. simpl.
  assert (Hi : nth i ch Undefined <> Undefined) by (apply H; left; auto).
  destruct (nth i ch Undefined); simpl; try (apply IH; intros; apply H; right; auto);
    try (replace (Z.of_nat j =? -1)%Z with false by (symmetry; apply Z.eqb_neq; lia); reflexivity).
  contradiction.
Qed.

Lemma scan_slots_spec ch is :
  (forall i, In i is -> nth i ch Undefined <> Undefined) ->
  scan_slots ch is (-1)%Z =
  Ok (match filter (fun i => negb (isNull (nth i ch Undefined))) is with
      | [] => (-1)%Z
      | [j] => Z.of_nat j
      | _ => (-2)%Z
      end).
Proof.
  induction is as [|i is IH]; intros H; [reflexivity|]. simpl.
  assert (Hi : nth i ch Undefined <> Undefined) by (apply H; left; auto).
  assert (H' : forall i, In i is -> nth i ch Undefined <> Undefined) by (intros; apply H; right; auto).
  destruct (nth i ch Undefined); simpl; try (apply IH; exact H');
    try (rewrite scan_slots_from by exact H';
         destruct (filter _ is); reflexivity).
  contradiction.
Qed.

Lemma resolve_not_undefined t n key j c :
  (forall raw, decodeNode raw <> Ok Undefined) -> n <> Undefined ->
  resolve decodeNode t n key j = Ok c -> c <> Undefined.
Proof.
  intros Hd Hn E ->. destruct n; simpl in E; try congruence.
  unfold resolveHash in E. destruct (db t) as [s|]; [|discriminate].
  destruct (store_get s data) as [raw|].
  - exact (Hd raw E).
  - unfold throw_new, new_MissingNodeError in E. simpl in E. discriminate.
Qed.


Lemma remove_full_eq t fuel ch f key pos i r :
  length ch = 17 -> skipn pos key = i :: r -> i < 17 ->
  _remove decodeNode t fuel (FullNode ch f) key pos =
  let* '(d, nn) := _remove decodeNode t fuel (nth i ch Undefined) key (S pos) in
  if negb d then Ok (false, FullNode ch f)
  else
    let* index := scan_slots (js_set_nat ch i nn) (seq 0 17) (-1)%Z in
    if (0 <=? index)%Z then
      if negb (index =? 16)%Z then
        let* child := resolve decodeNode t (nth (Z.to_nat index) (js_set_nat ch i nn) Undefined)
                        key (Z.to_nat index) in
        match child with
        | ShortNode k2 v2 _ =>
            Ok (true, ShortNode (concat (byte (Z.to_nat index)) k2) v2 (flags t))
        | Undefined => Throw undefined_read
        | _ => Ok (true, ShortNode (byte (Z.to_nat index))
                         (nth (Z.to_nat index) (js_set_nat ch i nn) Undefined) (flags t))
        end
      else Ok (true, ShortNode (byte (Z.to_nat index))
                       (nth (Z.to_nat index) (js_set_nat ch i nn) Undefined) (flags t))
    else Ok (true, FullNode (js_set_nat ch i nn) (dirty_flags f)).
Proof.
  intros Hl E Hi. assert (Hne : skipn pos key <> []) by (rewrite E; discriminate).
  rewrite _remove_eq, pos_le_of_ne, js_assert_true by exact Hne.
  destruct (skipn_cons_nth _ _ _ _ E) as [Hk _]. rewrite Hk.
  cbv beta iota zeta. rewrite nth_app_nth, nth_error_17 by lia. reflexivity.
Qed.

(** The code of the collapse computes [full_collapse_spec] when no slot is
    [undefined] and decoding never yields [undefined]. *)
Lemma collapse_eq t key ch f :
  length ch = 17 -> (forall j, j < 17 -> nth j ch Undefined <> Undefined) ->
  (forall j c, j < 17 -> resolve decodeNode t (nth j ch NullNode) key j = Ok c -> c <> Undefined) ->
  (let* index := scan_slots ch (seq 0 17) (-1)%Z in
   if (0 <=? index)%Z then
     if negb (index =? 16)%Z then
       let* child := resolve decodeNode t (nth (Z.to_nat index) ch Undefined) key (Z.to_nat index) in
       match child with
       | ShortNode k2 v2 _ =>
           Ok (true, ShortNode (concat (byte (Z.to_nat index)) k2) v2 (flags t))
       | Undefined => Throw undefined_read
       | _ => Ok (true, ShortNode (byte (Z.to_nat index)) (nth (Z.to_nat index) ch Undefined) (flags t))
       end
     else Ok (true, ShortNode (byte (Z.to_nat index)) (nth (Z.to_nat index) ch Undefined) (flags t))
   else Ok (true, FullNode ch (dirty_flags f)))
  = let* r := full_collapse_spec decodeNode t key ch f in Ok (true, r).
Proof.
  intros Hl Hu Hd.
  rewrite scan_slots_spec by (intros i Hi; apply Hu; apply in_seq in Hi; lia).
  unfold full_collapse_spec, nonnull_slots.
  destruct (filter _ (seq 0 17)) as [|j [|j' rest]] eqn:F; try reflexivity.
  assert (Hj : j < 17).
  { assert (In j (seq 0 17)) as Hin.
    { apply (filter_In (fun i => negb (isNull (nth i ch Undefined)))). rewrite F. now left. }
    apply in_seq in Hin. lia. }
  cbn [bind]. replace (0 <=? Z.of_nat j)%Z with true by (symmetry; apply Z.leb_le; lia).
  rewrite Nat2Z.id, !(nth_indep ch Undefined NullNode) by lia.
  destruct (Nat.eqb_spec j 16) as [-> | Hj16]; [reflexivity|].
  replace (Z.of_nat j =? 16)%Z with false by (symmetry; apply Z.eqb_neq; lia).
  simpl negb. cbv iota.
  destruct (resolve decodeNode t (nth j ch NullNode) key j) as [c|e] eqn:R; [|reflexivity].
  simpl. assert (c <> Undefined) by (apply (Hd j c); [lia | exact R]).
  destruct c; try reflexivity. contradiction.
Qed.


(** ** [_remove] on a store-free tree *)

Lemma lcp_prefix_stop p a x b :
  (forall y a'', a = y :: a'' -> y <> x) -> lcp (p ++ a) (p ++ x :: b) = length p.
Proof.
  intros H. induction p as [|z p IH]; simpl.
  - destruct a as [|y a'']; [reflexivity|]. simpl.
    specialize (H y a'' eq_refl). apply Nat.eqb_neq in H. now rewrite H.
  - now rewrite Nat.eqb_refl, IH.
Qed.

Lemma remove_short_miss t fuel k c f key pos p a x b :
  skipn pos key <> [] -> skipn pos key = p ++ a -> k = p ++ x :: b ->
  (forall y a'', a = y :: a'' -> y <> x) ->
  _remove decodeNode t fuel (ShortNode k c f) key pos = Ok (false, ShortNode k c f).
Proof.
  intros Hne E -> H. rewrite _remove_eq, pos_le_of_ne, js_assert_true by exact Hne.
  cbv beta iota zeta. unfold prefixLen. rewrite E, lcp_prefix_stop by exact H.
  replace (length p <? length (p ++ x :: b)) with true
    by (symmetry; apply Nat.ltb_lt; rewrite length_app; simpl; lia).
  reflexivity.
Qed.

Lemma remove_short_end t fuel k c f key pos :
  skipn pos key = k -> k <> [] ->
  _remove decodeNode t fuel (ShortNode k c f) key pos = Ok (true, NIL).
Proof.
  intros E Hk. assert (Hne : skipn pos key <> []) by (now rewrite E).
  rewrite _remove_eq, pos_le_of_ne, js_assert_true by exact Hne.
  cbv beta iota zeta. unfold prefixLen. rewrite E.
  pose proof (lcp_app_self k []) as L. rewrite app_nil_r in L. rewrite L, Nat.ltb_irrefl.
  pose proof (length_skipn pos key) as L2. rewrite E in L2. rewrite <- L2, Nat.eqb_refl.
  reflexivity.
Qed.

Lemma remove_short_descend t fuel k c f key pos a :
  skipn pos key = k ++ a -> a <> [] ->
  _remove decodeNode t fuel (ShortNode k c f) key pos =
  let* '(d, nn) := _remove decodeNode t fuel c key (pos + length k) in
  if negb d then Ok (false, ShortNode k c f)
  else match nn with
       | ShortNode k2 v2 _ => Ok (true, ShortNode (concat k k2) v2 (flags t))
       | Undefined => Throw undefined_read
       | _ => Ok (true, ShortNode k nn (flags t))
       end.
Proof.
  intros E Ha. assert (Hne : skipn pos key <> []) by (rewrite E; destruct k; simpl; congruence).
  rewrite _remove_eq, pos_le_of_ne, js_assert_true by exact Hne.
  cbv beta iota zeta. unfold prefixLen. rewrite E, lcp_app_self, Nat.ltb_irrefl.
  pose proof (length_skipn pos key) as L2. rewrite E, length_app in L2.
  replace (length k =? length key - pos) with false.
  2:{ symmetry. apply Nat.eqb_neq. destruct a; [congruence|]. simpl in L2. lia. }
  reflexivity.
Qed.

Lemma remove_term t fuel n key : is_term n ->
  _remove decodeNode t fuel n key (length key) =
  Ok (match n with ValueNode _ => true | _ => false end, NIL).
Proof. intros [-> | [d ->]]; rewrite _remove_eq, Nat.leb_refl; reflexivity. Qed.

Lemma wf_merge k k2 v2 g g' : nibs k -> wf (ShortNode k2 v2 g) -> wf (ShortNode (k ++ k2) v2 g').
Proof.
  intros Hk H. inversion H; subst.
  - constructor. now apply vk_app.
  - constructor; auto. apply nibs_app; auto.
Qed.

Lemma wf_not_undefined n : wf n -> n <> Undefined.
Proof. destruct 1; discriminate. Qed.

Lemma wf_resolve t n key j : wf n -> resolve decodeNode t n key j = Ok n.
Proof. destruct 1; reflexivity. Qed.

Lemma term_resolve t n key j : is_term n -> resolve decodeNode t n key j = Ok n.
Proof. intros [-> | [d ->]]; reflexivity. Qed.

Lemma lk_short_congr k a c1 c2 f1 f2 :
  nibs k -> (forall q1, vk q1 -> q1 <> a -> lk c1 q1 = lk c2 q1) ->
  forall q, vk q -> q <> k ++ a -> lk (ShortNode k c1 f1) q = lk (ShortNode k c2 f2) q.
Proof.
  intros Hk H q Hq Hne.
  destruct (lk_short_cases k c1 f1 q) as [[q1 [-> E]] | [Hn E]]; rewrite E.
  - rewrite lk_short_app. apply H; [eapply vk_app_inv; eauto | congruence].
  - symmetry. now apply lk_short_other.
Qed.

Lemma nonnull_slots_null ch j j' : nonnull_slots ch = [j] -> j' < 17 -> j' <> j ->
  nth j' ch Undefined = NullNode.
Proof.
  intros F Hj' Hne. destruct (nth j' ch Undefined) eqn:E; auto; exfalso;
  assert (Hin : In j' (nonnull_slots ch))
    by (apply filter_In; split; [apply in_seq; lia | now rewrite E]);
  rewrite F in Hin; destruct Hin as [|[]]; auto.
Qed.

Lemma nonnull_slots_bound ch j rest : nonnull_slots ch = j :: rest ->
  j < 17 /\ isNull (nth j ch Undefined) = false.
Proof.
  intros F. assert (Hin : In j (nonnull_slots ch)) by (rewrite F; now left).
  apply filter_In in Hin as [Hin P]. apply in_seq in Hin. split; [lia|].
  now destruct (isNull _).
Qed.

(** A Full node whose only non-Null slot is [j] has the lookups of
    [Short([j], children[j])]. *)
Lemma collapse_lk ch f g j q : length ch = 17 -> nonnull_slots ch = [j] -> vk q ->
  lk (ShortNode [j] (nth j ch NullNode) g) q = lk (FullNode ch f) q.
Proof.
  intros Hl F Hq. destruct q as [|j' q']; [destruct (vk_nonempty _ Hq eq_refl)|].
  pose proof (vk_head_bound _ _ Hq). destruct (nonnull_slots_bound _ _ _ F) as [Hj _].
  rewrite lk_full_nth by auto.
  destruct (Nat.eqb_spec j' j) as [-> | Hne].
  - rewrite (nth_indep ch NullNode Undefined) by lia. apply (lk_short_app [j]).
  - rewrite lk_short_head_ne by auto. now rewrite nonnull_slots_null with (j := j).
Qed.


Lemma lk_full_flags ch f f' q : lk (FullNode ch f) q = lk (FullNode ch f') q.
Proof. destruct q; reflexivity. Qed.

Lemma nibs_single j : j < 16 -> nibs [j].
Proof. intros. constructor; [exact H | constructor]. Qed.

(** On a well-formed Full node the collapse gives a well-formed node with
    the same lookups. *)
Lemma collapse_props t key ch f :
  length ch = 17 -> (forall j, j < 16 -> wf (nth j ch Undefined)) ->
  is_term (nth 16 ch Undefined) ->
  exists r, full_collapse_spec decodeNode t key ch f = Ok r /\ wf r /\
    forall q, vk q -> lk r q = lk (FullNode ch f) q.
Proof.
  intros Hl Hch Hterm. unfold full_collapse_spec.
  destruct (nonnull_slots ch) as [|j [|j' rest]] eqn:F;
    try (eexists; split; [reflexivity|]; split;
         [constructor; auto | intros; apply lk_full_flags]).
  destruct (nonnull_slots_bound _ _ _ F) as [Hj Hnn].
  rewrite !(nth_indep ch NullNode Undefined) by lia.
  destruct (Nat.eqb_spec j 16) as [-> | Hj16].
  - destruct Hterm as [E | [d E]]; rewrite E in Hnn; [discriminate|].
    eexists. split; [reflexivity|]. split; [rewrite E; repeat constructor|].
    intros q Hq. rewrite <- (nth_indep ch NullNode Undefined) by lia.
    now apply collapse_lk.
  - assert (Hw : wf (nth j ch Undefined)) by (apply Hch; lia).
    rewrite wf_resolve by exact Hw. cbn [bind].
    destruct (nth j ch Undefined) as [| |k v g| | |] eqn:C;
      try (eexists; split; [reflexivity|]; split;
           [constructor; [apply nibs_single; lia | exact Hw] |
            intros q Hq; rewrite <- C, <- (nth_indep ch NullNode Undefined) by lia;
            now apply collapse_lk]).
    + eexists. split; [reflexivity|]. split.
      * change (j :: k) with ([j] ++ k). apply (wf_merge _ _ _ g); [apply nibs_single; lia | exact Hw].
      * intros q Hq. change (j :: k) with ([j] ++ k). rewrite lk_short_merge with (f' := g) (f'' := g).
        rewrite <- C, <- (nth_indep ch NullNode Undefined) by lia. now apply collapse_lk.
Qed.


Lemma lk_short_mismatch k c f rest p a x b :
  rest = p ++ a -> k = p ++ x :: b -> (forall y a'', a = y :: a'' -> y <> x) ->
  lk (ShortNode k c f) rest = None.
Proof.
  intros -> -> H. apply lk_short_other. intros r' E.
  rewrite <- app_assoc in E. apply app_inv_head in E. simpl in E.
  exact (H x _ E eq_refl).
Qed.

Lemma wf_full_inv ch f : wf (FullNode ch f) ->
  length ch = 17 /\ (forall j, j < 16 -> wf (nth j ch Undefined)) /\ is_term (nth 16 ch Undefined).
Proof. inversion 1; auto. Qed.

Lemma wf_full_slots t key ch f : wf (FullNode ch f) -> forall j, j < 17 ->
  nth j ch Undefined <> Undefined /\
  resolve decodeNode t (nth j ch Undefined) key j = Ok (nth j ch Undefined).
Proof.
  intros H j Hj. apply wf_full_inv in H as (_ & Hch & Hterm).
  destruct (Nat.eqb_spec j 16) as [-> | Hne].
  - split; [destruct Hterm as [E | [d E]]; rewrite E; discriminate | now apply term_resolve].
  - assert (Hw : wf (nth j ch Undefined)) by (apply Hch; lia).
    split; [now apply wf_not_undefined | now apply wf_resolve].
Qed.

Lemma short_rebuild t k nn : wf nn -> nibs k ->
  exists n', match nn with
             | ShortNode k2 v2 _ => Ok (true, ShortNode (concat k k2) v2 (flags t))
             | Undefined => Throw undefined_read
             | _ => Ok (true, ShortNode k nn (flags t))
             end = Ok (true, n') /\ wf n' /\
    forall q, lk n' q = lk (ShortNode k nn (flags t)) q.
Proof.
  intros Hw Hk. destruct nn as [| |k2 v2 g| | |] eqn:E; try (inversion Hw; fail);
    try (eexists; split; [reflexivity | split; [apply wf_ext; auto | reflexivity]]).
  eexists. split; [reflexivity|]. split.
  - unfold concat. eapply wf_merge; eauto.
  - intros q. unfold concat. apply lk_short_merge.
Qed.

(** On a well-formed store-free tree [_remove] keeps the tree well formed,
    unmaps the key and keeps every other key; not found, it returns the
    node unchanged. *)
Lemma remove_wf t fuel n : wf n -> forall key pos, vk (skipn pos key) ->
  exists d n', _remove decodeNode t fuel n key pos = Ok (d, n') /\ wf n' /\
    lk n' (skipn pos key) = None /\
    (forall r, vk r -> r <> skipn pos key -> lk n' r = lk n r) /\
    (d = false -> n' = n).
Proof.
  induction 1 as [| k d0 f Hk | k c f Hk Hc IH | ch f Hlen Hch IH Hterm];
    intros key pos Hv; pose proof (vk_nonempty _ Hv) as Hne.
  - (* Null *)
    exists false, NullNode. rewrite _remove_eq, pos_le_of_ne, js_assert_true by exact Hne.
    repeat split; auto. constructor.
  - (* leaf *)
    destruct (lcp_spec (skipn pos key) k) as (p & a' & b' & Ha & Hb & _ & Hd).
    destruct b' as [|x b''].
    + rewrite app_nil_r in Hb. subst p.
      rewrite Ha in Hv. pose proof (vk_prefix_free _ _ Hk Hv). subst a'.
      rewrite app_nil_r in Ha.
      rewrite remove_short_end by (auto; now apply vk_nonempty).
      exists true, NIL. split; [reflexivity|]. split; [constructor|]. split; [reflexivity|].
      split; [|discriminate]. intros r Hr Hrn. rewrite lk_leaf_other; auto. congruence.
    + assert (Hm : forall y a'', a' = y :: a'' -> y <> x) by (intros y a'' E ->; eapply Hd; eauto).
      rewrite (remove_short_miss _ _ _ _ _ _ _ p a' x b'') by auto.
      exists false, (ShortNode k (ValueNode d0) f). split; [reflexivity|].
      split; [now constructor|]. split; [eapply lk_short_mismatch; eauto|]. auto.
  - (* extension *)
    destruct (lcp_spec (skipn pos key) k) as (p & a' & b' & Ha & Hb & _ & Hd).
    destruct b' as [|x b''].
    + rewrite app_nil_r in Hb. subst p.
      rewrite Ha in Hv. destruct (vk_after _ _ Hk Hv) as [Hva Hna].
      rewrite (remove_short_descend _ _ _ _ _ _ _ a') by auto.
      pose proof (skipn_add_app _ _ _ _ Ha) as Hsk.
      destruct (IH key (pos + length k) ltac:(rewrite Hsk; exact Hva))
        as (d & nn & Heq & Hw & Hl & Ho & Hn).
      rewrite Hsk in Hl, Ho. rewrite Heq, Ha. destruct d; cbn [negb bind].
      * destruct (short_rebuild t k nn Hw Hk) as (n' & E & Hw' & Hlk).
        rewrite E. exists true, n'. split; [reflexivity|]. split; [exact Hw'|].
        split; [rewrite Hlk, lk_short_app; exact Hl|]. split; [|discriminate].
        intros r Hr Hrn. rewrite Hlk. eapply lk_short_congr; eauto.
      * specialize (Hn eq_refl). subst nn.
        exists false, (ShortNode k c f). split; [reflexivity|]. split; [now constructor|].
        split; [rewrite lk_short_app; exact Hl|]. auto.
    + assert (Hm : forall y a'', a' = y :: a'' -> y <> x) by (intros y a'' E ->; eapply Hd; eauto).
      rewrite (remove_short_miss _ _ _ _ _ _ _ p a' x b'') by auto.
      exists false, (ShortNode k c f). split; [reflexivity|].
      split; [now constructor|]. split; [eapply lk_short_mismatch; eauto|]. auto.
  - (* Full *)
    destruct (skipn pos key) as [|i r] eqn:E; [contradiction|].
    pose proof (vk_head_bound _ _ Hv) as Hi.
    rewrite (remove_full_eq _ _ _ _ _ _ i r) by auto.
    destruct (skipn_cons_nth _ _ _ _ E) as [_ Hr].
    assert (Hlk : forall g, lk (FullNode ch g) (i :: r) = lk (nth i ch Undefined) r)
      by (intros; apply lk_full_nth; auto).
    assert (Hch' : exists d nn, _remove decodeNode t fuel (nth i ch Undefined) key (S pos)
                                  = Ok (d, nn) /\
              (i < 16 -> wf nn) /\ (i = 16 -> is_term nn) /\ lk nn r = None /\
              (forall q, vk (i :: q) -> q <> r -> lk nn q = lk (nth i ch Undefined) q) /\
              (d = false -> nn = nth i ch Undefined)).
    { apply vk_inv in Hv as [[-> ->] | [Hi16 Hv]].
      - assert (Hs : S pos = length key).
        { pose proof (length_skipn pos key) as L. rewrite E in L. simpl in L.
          pose proof (skipn_nonempty_lt key pos ltac:(rewrite E; discriminate)). lia. }
        rewrite Hs, remove_term by exact Hterm.
        eexists _, NIL. split; [reflexivity|]. split; [lia|]. split; [left; reflexivity|].
        split; [reflexivity|].
        split; [intros q Hq Hqn; apply vk_inv in Hq as [[_ ->] | [H _]]; [congruence | lia]|].
        destruct Hterm as [-> | [d ->]]; [auto | discriminate].
      - destruct (IH i Hi16 key (S pos) ltac:(now rewrite Hr))
          as (d & nn & Heq & Hw & Hl & Ho & Hn).
        rewrite Hr in Hl, Ho.
        exists d, nn. split; [exact Heq|]. split; [auto|]. split; [lia|].
        split; [exact Hl|]. split; [|auto].
        intros q Hq Hqn. apply Ho; auto. apply vk_inv in Hq as [[-> _] | [_ Hq]]; [lia | auto]. }
    destruct Hch' as (d & nn & Heq & Hw & Ht & Hl & Ho & Hn).
    rewrite Heq. destruct d; cbn [negb bind].
    + destruct (full_update ch f f i r nn None) as (W & L & O); auto.
      destruct (wf_full_inv _ _ W) as (Hl' & Hch'' & Hterm').
      rewrite collapse_eq; auto.
      2:{ intros j Hj. apply (wf_full_slots t key _ _ W j Hj). }
      2:{ intros j c Hj R. rewrite <- (nth_indep _ Undefined NullNode) in R by lia.
          destruct (wf_full_slots t key _ _ W j Hj) as [Hu R'].
          rewrite R' in R. injection R as <-. exact Hu. }
      destruct (collapse_props t key _ f Hl' Hch'' Hterm') as (r' & Ec & Wr & Lr).
      rewrite Ec. exists true, r'. split; [reflexivity|]. split; [exact Wr|].
      split; [rewrite Lr by exact Hv; exact L|]. split; [|discriminate].
      intros q Hq Hqn. rewrite Lr by exact Hq. now apply O.
    + specialize (Hn eq_refl). subst nn. exists false, (FullNode ch f).
      split; [reflexivity|]. split; [now constructor|].
      split; [rewrite Hlk; exact Hl|]. auto.
Qed.


(** ** Keys *)

Lemma nib_bounds b : nib_hi b < 16 /\ nib_lo b < 16.
Proof. destruct b; split; apply Nat.ltb_lt; reflexivity. Qed.

Lemma nib_join b : Byte.of_nat (nib_hi b * 16 + nib_lo b) = Some b.
Proof. destruct b; reflexivity. Qed.

Lemma vk_toNibbles key : vk (toNibbles key).
Proof.
  unfold toNibbles. induction key as [|b key IH]; simpl; [constructor|].
  destruct (nib_bounds b). constructor; auto. constructor; auto.
Qed.

Lemma pack_flat key : pack_nibbles (flat_map (fun b => [nib_hi b; nib_lo b]) key) = key.
Proof. induction key as [|b key IH]; simpl; auto. now rewrite nib_join, IH. Qed.

Lemma toNibbles_inj a b : toNibbles a = toNibbles b -> a = b.
Proof.
  unfold toNibbles. intros E. apply app_inj_tail in E as [E _].
  rewrite <- (pack_flat a), <- (pack_flat b), E. reflexivity.
Qed.

(** ** The map semantics of a sequence of operations *)

Lemma expected_snoc pre o k :
  expected (pre ++ [o]) k =
  if bytes_eqb (op_key o) k then match o with OpInsert _ v => Some v | OpRemove _ => None end
  else expected pre k.
Proof.
  unfold expected. rewrite rev_app_distr. simpl.
  destruct (bytes_eqb (op_key o) k); [destruct o|]; reflexivity.
Qed.

Lemma get_wf_root t fuel k : wf (root t) ->
  get decodeNode t fuel k = Ok (lk (root t) (toNibbles k), t).
Proof.
  intros Hw. unfold get.
  rewrite (get_wf t fuel (root t) Hw (toNibbles k) 0) by apply vk_toNibbles.
  reflexivity.
Qed.

Lemma apply_op_inv fuel t pre o :
  wf (root t) -> (forall k, lk (root t) (toNibbles k) = expected pre k) ->
  exists t', apply_op decodeNode fuel t o = Ok t' /\ wf (root t') /\
    forall k, lk (root t') (toNibbles k) = expected (pre ++ [o]) k.
Proof.
  intros Hw Hm. destruct o as [k v | k]; simpl; unfold insert, remove.
  - destruct (insert_wf t fuel v (root t) Hw (toNibbles k) 0 (vk_toNibbles k))
      as (d & n' & E & W & L & O & _).
    simpl skipn in *. rewrite E. eexists. split; [reflexivity|]. split; [exact W|].
    intros k'. rewrite expected_snoc. simpl op_key. simpl root.
    destruct (bytes_eqb k k') eqn:Eb.
    + apply bytes_eqb_true in Eb. now subst.
    + rewrite O; auto using vk_toNibbles.
      intros Ek. apply toNibbles_inj in Ek. subst. now rewrite bytes_eqb_refl in Eb.
  - destruct (remove_wf t fuel (root t) Hw (toNibbles k) 0 (vk_toNibbles k))
      as (d & n' & E & W & L & O & _).
    simpl skipn in *. rewrite E. eexists. split; [reflexivity|]. split; [exact W|].
    intros k'. rewrite expected_snoc. simpl op_key. simpl root.
    destruct (bytes_eqb k k') eqn:Eb.
    + apply bytes_eqb_true in Eb. now subst.
    + rewrite O; auto using vk_toNibbles.
      intros Ek. apply toNibbles_inj in Ek. subst. now rewrite bytes_eqb_refl in Eb.
Qed.

Lemma apply_ops_inv fuel os : forall t pre,
  wf (root t) -> (forall k, lk (root t) (toNibbles k) = expected pre k) ->
  exists t', apply_ops decodeNode fuel t os = Ok t' /\ wf (root t') /\
    forall k, lk (root t') (toNibbles k) = expected (pre ++ os) k.
Proof.
  induction os as [|o os IH]; intros t pre Hw Hm.
  - exists t. rewrite app_nil_r. auto.
  - destruct (apply_op_inv fuel t pre o Hw Hm) as (t1 & E & W & M). simpl. rewrite E.
    destruct (IH t1 (pre ++ [o]) W M) as (t2 & E2 & W2 & M2).
    exists t2. rewrite <- app_assoc in M2. auto.
Qed.


(** ** Hash nodes and the error paths *)

Lemma nth_error_skipn (key : nibbles) pos i :
  nth_error key pos = Some i -> skipn pos key = i :: skipn (S pos) key.
Proof.
  revert pos; induction key as [|x key IH]; intros [|pos] H; simpl in *; try discriminate.
  - now injection H as ->.
  - now apply IH.
Qed.

(** A successful resolution does not depend on the key and position, which
    only enter the error. *)
Lemma resolveHash_indep t d key pos key' pos' r :
  resolveHash decodeNode t d key pos = Ok r -> resolveHash decodeNode t d key' pos' = Ok r.
Proof.
  unfold resolveHash. destruct (db t) as [s|]; [|discriminate].
  destruct (store_get s d) as [raw|]; [auto|].
  unfold throw_new, new_MissingNodeError. simpl. intros H; discriminate H.
Qed.

Lemma set_root_root t : set_root t (root t) = t.
Proof. destruct t; reflexivity. Qed.

Lemma get_hash_eq t fuel d key pos : pos <= length key ->
  _get decodeNode t (S fuel) (HashNode d) key pos =
  let* child := resolveHash decodeNode t d key pos in
  let* '(val, nn, _) := _get decodeNode t fuel child key pos in
  Ok (val, nn, true).
Proof.
  intros H. rewrite _get_eq. replace (pos <=? length key) with true by (symmetry; now apply Nat.leb_le).
  reflexivity.
Qed.

Lemma insert_hash_eq t fuel d key pos value : skipn pos key <> [] ->
  _insert decodeNode t (S fuel) (HashNode d) key pos value =
  let* rn := resolveHash decodeNode t d key pos in
  let* '(d', nn) := _insert decodeNode t fuel rn key pos value in
  if negb d' then Ok (false, rn) else Ok (true, nn).
Proof. intros H. rewrite _insert_eq, pos_le_of_ne, js_assert_true, rest_nz by exact H. reflexivity. Qed.

Lemma remove_hash_eq t fuel d key pos : pos <= length key ->
  _remove decodeNode t (S fuel) (HashNode d) key pos =
  let* rn := resolveHash decodeNode t d key pos in
  let* '(d', nn) := _remove decodeNode t fuel rn key pos in
  if negb d' then Ok (false, rn) else Ok (true, nn).
Proof.
  intros H. rewrite _remove_eq. replace (pos <=? length key) with true by (symmetry; now apply Nat.leb_le).
  reflexivity.
Qed.

Lemma toNibbles_nonempty k : toNibbles k <> [].
Proof. apply vk_nonempty, vk_toNibbles. Qed.

(** Case analysis on every stuck [match] and [bind] of a hypothesis
    [m = Ok v], discarding the branches that throw or disagree. *)
Ltac dest_ok H :=
  repeat (unfold js_assert, undefined_call in H; cbn [bind negb] in H;
          first [ discriminate
                | match type of H with
                  | context [bind ?m _] => destruct m eqn:?
                  | context [match ?x with _ => _ end] => destruct x eqn:?
                  end ]).

(** The frames of a not-found [_remove]. *)
Lemma remove_false t fuel n key pos r :
  _remove decodeNode t fuel n key pos = Ok (false, r) ->
  r = n \/ exists d rn, n = HashNode d /\ resolveHash decodeNode t d key pos = Ok rn /\ r = rn.
Proof.
  intros H. rewrite _remove_eq in H. destruct n; dest_ok H;
    try (injection H as H; subst; eauto 6).
Qed.

(** [_get] reads nothing of the trie's root: only the store and the
    original root, which [set_root] keeps. *)
Lemma _get_set_root t r fuel : _get decodeNode (set_root t r) fuel = _get decodeNode t fuel.
Proof. induction fuel as [|f IH]; [reflexivity|]. simpl. rewrite IH. reflexivity. Qed.

(** ** The decision procedure for well-formedness *)

Lemma vkb_sound k : vkb k = true -> vk k.
Proof.
  induction k as [|x r IH]; [discriminate|].
  destruct r as [|y r'].
  - intros H. apply Nat.eqb_eq in H. subst. constructor.
  - intros H. change ((x <? 16) && vkb (y :: r') = true) in H.
    apply andb_prop in H as [H1 H2]. apply Nat.ltb_lt in H1. constructor; auto.
Qed.

Lemma nibsb_sound k : nibsb k = true -> nibs k.
Proof.
  unfold nibsb, nibs. intros H. apply Forall_forall. intros x Hx.
  apply Nat.ltb_lt. exact (proj1 (forallb_forall _ k) H x Hx).
Qed.

Lemma is_termb_sound n : is_termb n = true -> is_term n.
Proof. destruct n; try discriminate; [left | right; eexists]; reflexivity. Qed.

Lemma slots_ok_sound l : forall j,
  slots_ok wfb j l = true -> Forall (fun c => wfb c = true -> wf c) l ->
  forall i, i < length l ->
    (j + i < 16 -> wf (nth i l Undefined)) /\ (16 <= j + i -> is_term (nth i l Undefined)).
Proof.
  induction l as [|c l IH]; intros j H HF i Hi; [simpl in Hi; lia|].
  simpl in H. apply andb_prop in H as [H1 H2]. inversion HF as [|? ? Hc HF']; subst.
  destruct i as [|i].
  - simpl. rewrite Nat.add_0_r. destruct (j <? 16) eqn:E.
    + apply Nat.ltb_lt in E. split; intros; [auto | lia].
    + apply Nat.ltb_ge in E. split; intros; [lia | now apply is_termb_sound].
  - simpl. simpl in Hi. destruct (IH (S j) H2 HF' i ltac:(lia)) as [A B].
    split; intros; [apply A | apply B]; lia.
Qed.

Lemma wfb_sound n : wfb n = true -> wf n.
Proof.
  induction n as [| d | k c f IH | ch f IH | d |] using node_ind'; intros H;
    try discriminate.
  - constructor.
  - destruct c; simpl in H;
      try (apply andb_prop in H as [H1 H2]; apply wf_ext; [now apply nibsb_sound | auto]).
    apply wf_leaf. now apply vkb_sound.
  - simpl in H. apply andb_prop in H as [H1 H2]. apply Nat.eqb_eq in H1.
    pose proof (slots_ok_sound ch 0 H2 IH) as S.
    constructor; [exact H1 | |].
    + intros i Hi. apply (S i); lia.
    + apply (S 16); lia.
Qed.

(** Removing a key absent from a well-formed store-free tree returns the
    tree as it is, reporting not found. *)
Lemma remove_absent t fuel n : wf n -> forall key pos, vk (skipn pos key) ->
  lk n (skipn pos key) = None ->
  _remove decodeNode t fuel n key pos = Ok (false, n).
Proof.
  induction 1 as [| k d0 f Hk | k c f Hk Hc IH | ch f Hlen Hch IH Hterm];
    intros key pos Hv Hl; pose proof (vk_nonempty _ Hv) as Hne.
  - rewrite _remove_eq, pos_le_of_ne, js_assert_true by exact Hne. reflexivity.
  - destruct (lcp_spec (skipn pos key) k) as (p & a' & b' & Ha & Hb & _ & Hd).
    destruct b' as [|x b''].
    + rewrite app_nil_r in Hb. subst p.
      rewrite Ha in Hv. pose proof (vk_prefix_free _ _ Hk Hv). subst a'.
      rewrite app_nil_r in Ha. rewrite Ha, lk_short_self in Hl. discriminate.
    + assert (Hm : forall y a'', a' = y :: a'' -> y <> x) by (intros y a'' E ->; eapply Hd; eauto).
      now rewrite (remove_short_miss _ _ _ _ _ _ _ p a' x b'') by auto.
  - destruct (lcp_spec (skipn pos key) k) as (p & a' & b' & Ha & Hb & _ & Hd).
    destruct b' as [|x b''].
    + rewrite app_nil_r in Hb. subst p.
      rewrite Ha in Hv. destruct (vk_after _ _ Hk Hv) as [Hva Hna].
      rewrite (remove_short_descend _ _ _ _ _ _ _ a') by auto.
      pose proof (skipn_add_app _ _ _ _ Ha) as Hsk.
      rewrite Ha, lk_short_app in Hl.
      rewrite (IH key (pos + length k)) by (rewrite Hsk; assumption).
      reflexivity.
    + assert (Hm : forall y a'', a' = y :: a'' -> y <> x) by (intros y a'' E ->; eapply Hd; eauto).
      now rewrite (remove_short_miss _ _ _ _ _ _ _ p a' x b'') by auto.
  - destruct (skipn pos key) as [|i r] eqn:E; [contradiction|].
    pose proof (vk_head_bound _ _ Hv) as Hi.
    rewrite (remove_full_eq _ _ _ _ _ _ i r) by auto.
    destruct (skipn_cons_nth _ _ _ _ E) as [_ Hr].
    rewrite lk_full_nth in Hl by auto.
    apply vk_inv in Hv as [[-> ->] | [Hi16 Hv]].
    + assert (Hs : S pos = length key).
      { pose proof (length_skipn pos key) as L. rewrite E in L. simpl in L.
        pose proof (skipn_nonempty_lt key pos ltac:(rewrite E; discriminate)). lia. }
      rewrite Hs, remove_term by exact Hterm.
      destruct Hterm as [Hn | [d Hd]]; rewrite Hd in Hl || rewrite Hn; [reflexivity|].
      discriminate.
    + rewrite (IH i Hi16 key (S pos)) by (rewrite Hr; assumption). reflexivity.
Qed.

(** [get] on a well-formed store-free root, value part. *)
Lemma get_value_wf t fuel k : wf (root t) ->
  get_value decodeNode t fuel k = Ok (lk (root t) (toNibbles k)).
Proof. intros W. unfold get_value. rewrite get_wf_root by exact W. reflexivity. Qed.

(** [insert] and [remove] change only the root of the trie. *)
Lemma apply_op_set_root fuel t o t' :
  apply_op decodeNode fuel t o = Ok t' -> t' = set_root t (root t').
Proof.
  destruct o as [k v | k]; unfold apply_op, insert, remove; cbv zeta.
  - destruct (_insert decodeNode t fuel (root t) (toNibbles k) 0 (ValueNode v))
      as [[? r] | e]; cbn [bind]; intros H; [|discriminate]. now injection H as <-.
  - destruct (_remove decodeNode t fuel (root t) (toNibbles k) 0)
      as [[? r] | e]; cbn [bind]; intros H; [|discriminate]. now injection H as <-.
Qed.

Lemma apply_ops_set_root fuel os : forall t t',
  apply_ops decodeNode fuel t os = Ok t' -> t' = set_root t (root t').
Proof.
  induction os as [|o os IH]; intros t t' H.
  - injection H as <-. symmetry. apply set_root_root.
  - cbn [apply_ops] in H. destruct (apply_op decodeNode fuel t o) as [t1 | e] eqn:E;
      cbn [bind] in H; [|discriminate].
    apply apply_op_set_root in E. rewrite (IH _ _ H), E. reflexivity.
Qed.

(** ** The shape kept by insert and remove *)

Lemma cwf_wf n : cwf n -> wf n.
Proof.
  induction 1 as [k d f Hk | k ch g f Hk Hne Hc IH | ch f Hl Hs IH Ht Hex].
  - now constructor.
  - now constructor.
  - constructor; auto. intros i Hi.
    destruct (nth i ch Undefined) eqn:E; try (rewrite <- E; apply IH; [exact Hi | rewrite E; discriminate]).
    constructor.
Qed.

Lemma cwf_not_null n : cwf n -> n <> NullNode.
Proof. destruct 1; discriminate. Qed.

Lemma nonnull_slots_spec ch j :
  In j (nonnull_slots ch) <-> j < 17 /\ nth j ch Undefined <> NullNode.
Proof.
  unfold nonnull_slots. rewrite filter_In, in_seq.
  destruct (nth j ch Undefined); simpl; intuition (try discriminate; try lia).
Qed.

Lemma nonnull_slots_NoDup ch : NoDup (nonnull_slots ch).
Proof. unfold nonnull_slots. apply NoDup_filter, seq_NoDup. Qed.

(** A node of this shape holds a value at some remaining key. *)
Lemma cwf_nonempty n : cwf n -> exists r, vk r /\ lk n r <> None.
Proof.
  induction 1 as [k d f Hk | k ch g f Hk Hne Hc IH | ch f Hl Hs IH Ht Hex].
  - exists k. split; [exact Hk|]. rewrite lk_short_self. discriminate.
  - destruct IH as (r & Hr & L). exists (k ++ r). split; [now apply vk_app|].
    now rewrite lk_short_app.
  - destruct Hex as (i & j & Hi & Hj & Hij & Ni & Nj).
    assert (Hk : (exists m, m < 17 /\ m <> 16 /\ nth m ch Undefined <> NullNode) \/
                 nth 16 ch Undefined <> NullNode).
    { destruct (Nat.eq_dec i 16) as [-> | Hi16]; [right; exact Ni|].
      left. exists i. auto. }
    destruct (nth 16 ch Undefined) eqn:E16.
    + destruct Hk as [(m & Hm & Hm16 & Nm) | N]; [|contradiction].
      destruct (IH m ltac:(lia) Nm) as (r & Hr & L).
      exists (m :: r). split; [constructor; [lia | exact Hr]|].
      rewrite lk_full_nth by lia. exact L.
    + destruct Ht as [E | [d E]]; rewrite E in E16; discriminate.
    + destruct Ht as [E | [d E]]; rewrite E in E16; discriminate.
    + destruct Ht as [E | [d E]]; rewrite E in E16; discriminate.
    + exists [16]. split; [constructor|]. rewrite lk_full_nth, E16 by lia. discriminate.
    + destruct Ht as [E | [d E]]; rewrite E in E16; discriminate.
Qed.

(** The Full node of a Short split, with two non-Null slots [x <> y]. *)
Lemma branch_cwf x y n1 n2 g : x < 17 -> y < 17 -> x <> y ->
  n1 <> NullNode -> n2 <> NullNode ->
  (x < 16 -> cwf n1) -> (x = 16 -> is_term n1) ->
  (y < 16 -> cwf n2) -> (y = 16 -> is_term n2) ->
  cwf (FullNode (js_set (js_set fullNode_children (Some x) n1) (Some y) n2) g).
Proof.
  intros Hx Hy Hxy N1 N2 C1 T1 C2 T2. constructor.
  - now apply length_branch.
  - intros i Hi Hn. rewrite nth_branch in * by lia.
    destruct (Nat.eqb_spec i y) as [-> | ?]; [auto|].
    destruct (Nat.eqb_spec i x) as [-> | ?]; [auto | contradiction].
  - rewrite nth_branch by lia.
    destruct (Nat.eqb_spec 16 y) as [<- | ?]; [auto|].
    destruct (Nat.eqb_spec 16 x) as [<- | ?]; [auto | now left].
  - exists x, y. rewrite !nth_branch by lia. rewrite Nat.eqb_refl.
    destruct (Nat.eqb_spec x y); [contradiction|]. rewrite Nat.eqb_refl. auto.
Qed.

(** The slot a split makes for the rest [x :: b] of a leaf key. *)
Lemma tail_slot t x b d : vk (x :: b) ->
  let n1 := match b with [] => ValueNode d | _ => ShortNode b (ValueNode d) (flags t) end in
  x < 17 /\ n1 <> NullNode /\ (x < 16 -> cwf n1) /\ (x = 16 -> is_term n1).
Proof.
  intros H. apply vk_inv in H as [[-> ->] | [Hx Hb]]; cbv zeta.
  - split; [lia|]. split; [discriminate|]. split; [lia|]. right; eauto.
  - destruct b as [|z b']; [inversion Hb|].
    split; [lia|]. split; [discriminate|]. split; [now constructor | lia].
Qed.

(** The slots of a Full node after one of them is replaced. *)
Lemma full_set_cwf ch f i nn :
  length ch = 17 -> i < 17 ->
  (forall j, j < 16 -> nth j ch Undefined <> NullNode -> cwf (nth j ch Undefined)) ->
  is_term (nth 16 ch Undefined) ->
  (i < 16 -> nn <> NullNode -> cwf nn) -> (i = 16 -> is_term nn) ->
  (exists j1 j2, j1 < 17 /\ j2 < 17 /\ j1 <> j2 /\
     nth j1 (js_set_nat ch i nn) Undefined <> NullNode /\
     nth j2 (js_set_nat ch i nn) Undefined <> NullNode) ->
  cwf (FullNode (js_set_nat ch i nn) f).
Proof.
  intros Hl Hi Hs Ht Cn Tn Hex. constructor.
  - rewrite length_js_set_nat; lia.
  - intros j Hj. rewrite nth_js_set_nat by lia.
    destruct (Nat.eqb_spec j i) as [-> | ?]; auto.
  - rewrite nth_js_set_nat by lia.
    destruct (Nat.eqb_spec 16 i) as [<- | ?]; auto.
  - exact Hex.
Qed.

Lemma nth_set_nonnull ch i nn j : length ch = 17 -> i < 17 ->
  nn <> NullNode -> nth j ch Undefined <> NullNode ->
  nth j (js_set_nat ch i nn) Undefined <> NullNode.
Proof.
  intros Hl Hi Hn Hj. rewrite nth_js_set_nat by lia.
  destruct (j =? i); assumption.
Qed.

Lemma insert_null_cwf t fuel key pos v d n' : vk (skipn pos key) ->
  _insert decodeNode t fuel NullNode key pos (ValueNode v) = Ok (d, n') -> cwf n'.
Proof.
  intros Hv H. rewrite insert_null_eq in H by (now apply vk_nonempty).
  injection H as <- <-. now constructor.
Qed.

(** [_insert] of a value keeps the shape, and maps a Full node to a Full
    node. *)
Lemma insert_cwf t fuel v n : cwf n -> forall key pos d n', vk (skipn pos key) ->
  _insert decodeNode t fuel n key pos (ValueNode v) = Ok (d, n') ->
  cwf n' /\ (forall ch g, n = FullNode ch g -> exists ch' g', n' = FullNode ch' g').
Proof.
  induction 1 as [k d0 f Hk | k ch g f Hk Hkne Hc IH | ch f Hl Hs IH Ht Hex];
    intros key pos d n' Hv H; pose proof (vk_nonempty _ Hv) as Hne.
  - (* leaf *)
    split; [|discriminate].
    destruct (lcp_spec (skipn pos key) k) as (p & a' & b' & Ha & Hb & _ & Hd).
    destruct b' as [|x b''].
    + rewrite app_nil_r in Hb. subst p.
      rewrite Ha in Hv. pose proof (vk_prefix_free _ _ Hk Hv). subst a'.
      rewrite app_nil_r in Ha, Hv.
      rewrite (insert_short_descend _ _ _ _ _ _ _ _ []) in H
        by (rewrite app_nil_r; first [exact Ha | now apply vk_nonempty]).
      assert (Hl : pos + length k = length key).
      { pose proof (length_skipn pos key) as L. rewrite Ha in L.
        pose proof (skipn_nonempty_lt key pos Hne). lia. }
      rewrite Hl, insert_term in H by (right; eauto).
      destruct (bytes_eqb d0 v); simpl in H; injection H as <- <-; now constructor.
    + destruct a' as [|y a''].
      * exfalso. rewrite app_nil_r in Ha. rewrite Ha in Hv. rewrite Hb in Hk.
        pose proof (vk_prefix_free _ _ Hv Hk). discriminate.
      * assert (Hxy : x <> y) by (intros ->; eapply Hd; eauto).
        rewrite (insert_short_split _ _ _ _ _ _ _ _ p x y a'' b'') in H by auto.
        cbv zeta in H. injection H as <- <-.
        rewrite Hb in Hk. rewrite Ha in Hv.
        assert (Hxb : vk (x :: b'')) by (eapply vk_app_inv; [eapply vk_nibs_prefix|]; eauto).
        assert (Hya : vk (y :: a'')) by (eapply vk_app_inv; [eapply vk_nibs_prefix|]; eauto).
        destruct (tail_slot t x b'' d0 Hxb) as (Hx & N1 & C1 & T1).
        destruct (tail_slot t y a'' v Hya) as (Hy & N2 & C2 & T2).
        pose proof (branch_cwf x y _ _ (flags t) Hx Hy Hxy N1 N2 C1 T1 C2 T2) as B.
        destruct p as [|z p']; [exact B|].
        apply cwf_ext; [eapply vk_nibs_prefix; exact Hv | discriminate | exact B].
  - (* extension *)
    split; [|discriminate].
    destruct (lcp_spec (skipn pos key) k) as (p & a' & b' & Ha & Hb & _ & Hd).
    destruct b' as [|x b''].
    + rewrite app_nil_r in Hb. subst p.
      rewrite Ha in Hv. destruct (vk_after _ _ Hk Hv) as [Hva Hna].
      rewrite (insert_short_descend _ _ _ _ _ _ _ _ a') in H
        by first [exact Ha | intros Hx; apply app_eq_nil in Hx as [_ Hx]; auto].
      pose proof (skipn_add_app _ _ _ _ Ha) as Hsk.
      destruct (_insert decodeNode t fuel (FullNode ch g) key (pos + length k) (ValueNode v))
        as [[d' nn] | e] eqn:Ec; cbn [bind] in H; [|discriminate].
      destruct (IH key (pos + length k) d' nn ltac:(rewrite Hsk; exact Hva) Ec) as [Cn Fn].
      destruct (Fn ch g eq_refl) as (ch' & g' & ->).
      destruct d'; cbn [negb] in H; injection H as <- <-; now constructor.
    + destruct a' as [|y a''].
      * exfalso. rewrite app_nil_r in Ha. rewrite Ha in Hv. rewrite Hb in Hk.
        apply nibs_app in Hk as [Hk _]. now apply (vk_not_nibs _ Hv).
      * assert (Hxy : x <> y) by (intros ->; eapply Hd; eauto).
        rewrite (insert_short_split _ _ _ _ _ _ _ _ p x y a'' b'') in H by auto.
        cbv zeta in H. injection H as <- <-.
        rewrite Hb in Hk. apply nibs_app in Hk as [Hp Hxb].
        inversion Hxb as [|? ? Hx Hb'']; subst.
        rewrite Ha in Hv.
        assert (Hya : vk (y :: a'')) by (eapply vk_app_inv; [eapply vk_nibs_prefix|]; eauto).
        destruct (tail_slot t y a'' v Hya) as (Hy & N2 & C2 & T2).
        assert (N1 : match b'' with
                     | [] => FullNode ch g
                     | _ => ShortNode b'' (FullNode ch g) (flags t)
                     end <> NullNode) by (destruct b''; discriminate).
        assert (C1 : cwf (match b'' with
                          | [] => FullNode ch g
                          | _ => ShortNode b'' (FullNode ch g) (flags t)
                          end)).
        { destruct b'' as [|z b3]; [exact Hc|].
          apply cwf_ext; [exact Hb'' | discriminate | exact Hc]. }
        pose proof (branch_cwf x y _ _ (flags t) ltac:(lia) Hy Hxy N1 N2 (fun _ => C1)
                      ltac:(intros; exfalso; lia) C2 T2) as B.
        destruct p as [|z p']; [exact B|].
        apply cwf_ext; [exact Hp | discriminate | exact B].
  - (* Full *)
    destruct (skipn pos key) as [|i r] eqn:E; [contradiction|].
    pose proof (vk_head_bound _ _ Hv) as Hi.
    rewrite (insert_full_eq _ _ _ _ _ _ _ i r) in H by auto.
    destruct (skipn_cons_nth _ _ _ _ E) as [_ Hr].
    destruct (_insert decodeNode t fuel (nth i ch Undefined) key (S pos) (ValueNode v))
      as [[d' nn] | e] eqn:Ec; cbn [bind] in H; [|discriminate].
    assert (Hnn : nn <> NullNode /\ (i < 16 -> cwf nn) /\ (i = 16 -> is_term nn)).
    { apply vk_inv in Hv as [[-> ->] | [Hi16 Hv]].
      - assert (Hs' : S pos = length key).
        { pose proof (length_skipn pos key) as L. rewrite E in L. simpl in L.
          pose proof (skipn_nonempty_lt key pos ltac:(rewrite E; discriminate)). lia. }
        rewrite Hs', insert_term in Ec by exact Ht. injection Ec as _ <-.
        split; [discriminate|]. split; [lia | right; eauto].
      - assert (C : cwf nn).
        { destruct (nth i ch Undefined) eqn:Ei.
          1: eapply insert_null_cwf; [rewrite Hr; exact Hv | exact Ec].
          all: refine (proj1 (IH i Hi16 _ key (S pos) d' nn _ _));
                 [rewrite Ei; discriminate | rewrite Hr; exact Hv | rewrite Ei; exact Ec]. }
        split; [exact (cwf_not_null _ C)|]. split; [auto | intros; exfalso; lia]. }
    destruct Hnn as (N & Cn & Tn).
    split; [| intros ch0 g0 _; destruct d'; cbn [negb] in H; injection H as <- <-; eauto].
    destruct d'; cbn [negb] in H; injection H as <- <-.
    + apply full_set_cwf; auto.
      destruct Hex as (j1 & j2 & Hj1 & Hj2 & Hj12 & N1 & N2).
      exists j1, j2. split; [exact Hj1|]. split; [exact Hj2|]. split; [exact Hj12|].
      split; apply nth_set_nonnull; auto.
    + constructor; auto.
Qed.

Lemma full_set_slots ch i nn :
  length ch = 17 -> i < 17 ->
  (forall j, j < 16 -> nth j ch Undefined <> NullNode -> cwf (nth j ch Undefined)) ->
  is_term (nth 16 ch Undefined) ->
  (i < 16 -> nn <> NullNode -> cwf nn) -> (i = 16 -> is_term nn) ->
  length (js_set_nat ch i nn) = 17 /\
  (forall j, j < 16 -> nth j (js_set_nat ch i nn) Undefined <> NullNode ->
     cwf (nth j (js_set_nat ch i nn) Undefined)) /\
  is_term (nth 16 (js_set_nat ch i nn) Undefined).
Proof.
  intros Hl Hi Hs Ht Cn Tn. split; [rewrite length_js_set_nat; lia|]. split.
  - intros j Hj. rewrite nth_js_set_nat by lia.
    destruct (Nat.eqb_spec j i) as [-> | ?]; auto.
  - rewrite nth_js_set_nat by lia.
    destruct (Nat.eqb_spec 16 i) as [<- | ?]; auto.
Qed.

Lemma slots_wf ch f : length ch = 17 ->
  (forall j, j < 16 -> nth j ch Undefined <> NullNode -> cwf (nth j ch Undefined)) ->
  is_term (nth 16 ch Undefined) -> wf (FullNode ch f).
Proof.
  intros Hl Hs Ht. constructor; auto. intros j Hj.
  destruct (nth j ch Undefined) eqn:E;
    try (rewrite <- E; apply cwf_wf, Hs; [exact Hj | rewrite E; discriminate]).
  constructor.
Qed.

Lemma remove_full_found t fuel ch f key pos i r nn :
  length ch = 17 -> skipn pos key = i :: r -> i < 17 ->
  _remove decodeNode t fuel (nth i ch Undefined) key (S pos) = Ok (true, nn) ->
  wf (FullNode (js_set_nat ch i nn) f) ->
  _remove decodeNode t fuel (FullNode ch f) key pos =
  let* r' := full_collapse_spec decodeNode t key (js_set_nat ch i nn) f in Ok (true, r').
Proof.
  intros Hl E Hi Ec W.
  rewrite (remove_full_eq _ _ _ _ _ _ i r) by auto. rewrite Ec. cbn [negb bind].
  destruct (wf_full_inv _ _ W) as (Hl' & _ & _).
  apply collapse_eq; auto.
  - intros j Hj. apply (wf_full_slots t key _ _ W j Hj).
  - intros j c Hj R. rewrite <- (nth_indep _ Undefined NullNode) in R by lia.
    destruct (wf_full_slots t key _ _ W j Hj) as [Hu R'].
    rewrite R' in R. injection R as <-. exact Hu.
Qed.

(** The collapse of a Full node with a non-Null slot left keeps the shape. *)
Lemma collapse_cwf t key ch f r : length ch = 17 ->
  (forall j, j < 16 -> nth j ch Undefined <> NullNode -> cwf (nth j ch Undefined)) ->
  is_term (nth 16 ch Undefined) ->
  (exists m, m < 17 /\ nth m ch Undefined <> NullNode) ->
  full_collapse_spec decodeNode t key ch f = Ok r -> cwf r.
Proof.
  intros Hl Hs Ht M H. unfold full_collapse_spec in H.
  destruct (nonnull_slots ch) as [|j [|j' rest]] eqn:F.
  - exfalso. destruct M as (m & Hm & Nm).
    assert (Hin : In m (nonnull_slots ch)) by (apply nonnull_slots_spec; auto).
    rewrite F in Hin. destruct Hin.
  - assert (Hin : In j (nonnull_slots ch)) by (rewrite F; now left).
    apply nonnull_slots_spec in Hin as [Hj Nj].
    rewrite (nth_indep ch (n:=j) NullNode Undefined) in H by lia.
    destruct (Nat.eqb_spec j 16) as [-> | J16].
    + injection H as <-.
      destruct Ht as [E16 | [dd E16]]; [contradiction|].
      rewrite (nth_indep ch (n:=16) NullNode Undefined), E16 by lia. apply cwf_leaf. constructor.
    + assert (Cj : cwf (nth j ch Undefined)) by (apply Hs; [lia | exact Nj]).
      destruct (nth j ch Undefined) as [| |k2 c2 g2|ch2 g2| |] eqn:Ej;
        try (inversion Cj; fail); cbn [resolve bind] in H; injection H as <-.
      * inversion Cj as [k3 d3 f3 Hk3 | k3 ch3 g3 f3 Hk3 Hk3ne Hc3 |]; subst.
        -- apply cwf_leaf. apply vk_cons; [lia | exact Hk3].
        -- apply cwf_ext; [constructor; [lia | exact Hk3] | discriminate | exact Hc3].
      * apply cwf_ext; [apply nibs_single; lia | discriminate | exact Cj].
  - injection H as <-.
    assert (Hin : In j (nonnull_slots ch)) by (rewrite F; now left).
    assert (Hin' : In j' (nonnull_slots ch)) by (rewrite F; right; now left).
    assert (Hjj : j <> j').
    { pose proof (nonnull_slots_NoDup ch) as ND. rewrite F in ND.
      apply NoDup_cons_iff in ND as [Hnin _]. intros ->. apply Hnin. now left. }
    apply nonnull_slots_spec in Hin as [Hj Nj].
    apply nonnull_slots_spec in Hin' as [Hj' Nj'].
    constructor; auto. exists j, j'. auto.
Qed.

(** [_remove] keeps the shape or empties the node, and never empties a
    Full node: at least one other slot is left. *)
Lemma remove_cwf t fuel n : cwf n -> forall key pos d n', vk (skipn pos key) ->
  _remove decodeNode t fuel n key pos = Ok (d, n') ->
  (n' = NullNode \/ cwf n') /\ (forall ch g, n = FullNode ch g -> cwf n').
Proof.
  induction 1 as [k d0 f Hk | k ch g f Hk Hkne Hc IH | ch f Hl Hs IH Ht Hex];
    intros key pos d n' Hv H; pose proof (vk_nonempty _ Hv) as Hne.
  - (* leaf *)
    split; [|discriminate].
    destruct (lcp_spec (skipn pos key) k) as (p & a' & b' & Ha & Hb & _ & Hd).
    destruct b' as [|x b''].
    + rewrite app_nil_r in Hb. subst p.
      rewrite Ha in Hv. pose proof (vk_prefix_free _ _ Hk Hv). subst a'.
      rewrite app_nil_r in Ha.
      rewrite remove_short_end in H by (auto; now apply vk_nonempty).
      injection H as _ <-. now left.
    + assert (Hm : forall y a'', a' = y :: a'' -> y <> x) by (intros y a'' E ->; eapply Hd; eauto).
      rewrite (remove_short_miss _ _ _ _ _ _ _ p a' x b'') in H by auto.
      injection H as _ <-. right. now constructor.
  - (* extension *)
    split; [|discriminate].
    destruct (lcp_spec (skipn pos key) k) as (p & a' & b' & Ha & Hb & _ & Hd).
    destruct b' as [|x b''].
    + rewrite app_nil_r in Hb. subst p.
      rewrite Ha in Hv. destruct (vk_after _ _ Hk Hv) as [Hva Hna].
      rewrite (remove_short_descend _ _ _ _ _ _ _ a') in H by auto.
      pose proof (skipn_add_app _ _ _ _ Ha) as Hsk.
      destruct (_remove decodeNode t fuel (FullNode ch g) key (pos + length k))
        as [[d' nn] | e] eqn:Ec; cbn [bind] in H; [|discriminate].
      destruct (IH key (pos + length k) d' nn ltac:(rewrite Hsk; exact Hva) Ec) as [_ Cn].
      specialize (Cn ch g eq_refl).
      right. destruct d'; cbn [negb] in H.
      * destruct Cn as [k2 d2 f2 Hk2 | k2 ch2 g2 f2 Hk2 Hk2ne Hc2 | ch2 f2 Hl2 Hs2 Ht2 Hex2];
          simpl in H; injection H as _ <-.
        -- constructor. unfold concat. now apply vk_app.
        -- apply cwf_ext; [apply nibs_app; auto | | exact Hc2].
           unfold concat. destruct k; [contradiction | discriminate].
        -- apply cwf_ext; [exact Hk | exact Hkne | now constructor].
      * injection H as _ <-. now constructor.
    + assert (Hm : forall y a'', a' = y :: a'' -> y <> x) by (intros y a'' E ->; eapply Hd; eauto).
      rewrite (remove_short_miss _ _ _ _ _ _ _ p a' x b'') in H by auto.
      injection H as _ <-. right. now constructor.
  - (* Full *)
    enough (C : cwf n') by (split; [right; exact C | intros; exact C]).
    destruct (skipn pos key) as [|i r] eqn:E; [contradiction|].
    pose proof (vk_head_bound _ _ Hv) as Hi.
    destruct (skipn_cons_nth _ _ _ _ E) as [_ Hr].
    destruct (_remove decodeNode t fuel (nth i ch Undefined) key (S pos))
      as [[d' nn] | e] eqn:Ec.
    2:{ rewrite (remove_full_eq _ _ _ _ _ _ i r), Ec in H by auto. discriminate. }
    assert (Hnn : (i < 16 -> nn <> NullNode -> cwf nn) /\ (i = 16 -> is_term nn)).
    { apply vk_inv in Hv as [[-> ->] | [Hi16 Hv]].
      - assert (Hs' : S pos = length key).
        { pose proof (length_skipn pos key) as L. rewrite E in L. simpl in L.
          pose proof (skipn_nonempty_lt key pos ltac:(rewrite E; discriminate)). lia. }
        rewrite Hs', remove_term in Ec by exact Ht. injection Ec as _ <-.
        split; [lia | left; reflexivity].
      - split; [|intros; exfalso; lia]. intros _ Nn.
        destruct (nth i ch Undefined) eqn:Ei.
        1:{ rewrite (remove_absent t fuel NullNode wf_null key (S pos)
                       ltac:(rewrite Hr; exact Hv) (lk_null _)) in Ec.
            injection Ec as _ <-. contradiction. }
        all: destruct (IH i Hi16 ltac:(rewrite Ei; discriminate) key (S pos) d' nn
                         ltac:(rewrite Hr; exact Hv) ltac:(rewrite Ei; exact Ec))
               as [[-> | C] _]; [contradiction | exact C]. }
    destruct Hnn as (Cn & Tn).
    destruct d'.
    2:{ rewrite (remove_full_eq _ _ _ _ _ _ i r), Ec in H by auto.
        cbn [bind negb] in H. injection H as _ <-. constructor; auto. }
    destruct (full_set_slots ch i nn Hl Hi Hs Ht Cn Tn) as (Hl' & Hs' & Ht').
    pose proof (slots_wf _ f Hl' Hs' Ht') as W.
    rewrite (remove_full_found t fuel ch f key pos i r nn) in H by auto.
    assert (M : exists m, m < 17 /\ nth m (js_set_nat ch i nn) Undefined <> NullNode).
    { destruct Hex as (j1 & j2 & Hj1 & Hj2 & Hj12 & N1 & N2).
      destruct (Nat.eq_dec j1 i) as [-> | Hne1].
      - exists j2. split; [exact Hj2|]. rewrite nth_js_set_nat by lia.
        destruct (Nat.eqb_spec j2 i); [congruence | exact N2].
      - exists j1. split; [exact Hj1|]. rewrite nth_js_set_nat by lia.
        destruct (Nat.eqb_spec j1 i); [congruence | exact N1]. }
    destruct (full_collapse_spec decodeNode t key (js_set_nat ch i nn) f) as [r'|e] eqn:Ecol;
      cbn [bind] in H; [|discriminate].
    injection H as _ <-. exact (collapse_cwf t key _ f r' Hl' Hs' Ht' M Ecol).
Qed.

Lemma shape_inv_wf n : shape_inv n -> wf n.
Proof. intros [[-> | C] _]; [constructor | now apply cwf_wf]. Qed.

Lemma apply_op_shape fuel t o t' : shape_inv (root t) ->
  apply_op decodeNode fuel t o = Ok t' -> shape_inv (root t').
Proof.
  intros [Hs Hi] H. pose proof (shape_inv_wf _ (conj Hs Hi)) as Hw.
  destruct o as [k v | k]; simpl in H; unfold insert, remove in H.
  - destruct (insert_wf t fuel v (root t) Hw (toNibbles k) 0 (vk_toNibbles k))
      as (d & n' & E & W & L & O & _).
    rewrite E in H. cbn [bind] in H. injection H as <-. simpl root.
    split.
    + right. destruct Hs as [Hn | C].
      * rewrite Hn in E. exact (insert_null_cwf t fuel _ 0 v d n' (vk_toNibbles k) E).
      * exact (proj1 (insert_cwf t fuel v _ C _ 0 d n' (vk_toNibbles k) E)).
    + intros r Hr Hl. destruct (list_eq_dec Nat.eq_dec r (toNibbles k)) as [-> | Hne]; eauto.
      apply Hi; [exact Hr|]. rewrite <- O; auto.
  - destruct (remove_wf t fuel (root t) Hw (toNibbles k) 0 (vk_toNibbles k))
      as (d & n' & E & W & L & O & _).
    rewrite E in H. cbn [bind] in H. injection H as <-. simpl root.
    split.
    + destruct Hs as [Hn | C].
      * rewrite Hn in E. rewrite (remove_absent t fuel NullNode wf_null _ 0 (vk_toNibbles k)
                                    (lk_null _)) in E.
        injection E as _ <-. now left.
      * exact (proj1 (remove_cwf t fuel _ C _ 0 d n' (vk_toNibbles k) E)).
    + intros r Hr Hl. destruct (list_eq_dec Nat.eq_dec r (toNibbles k)) as [-> | Hne]; eauto.
      apply Hi; [exact Hr|]. rewrite <- O; auto.
Qed.

Lemma apply_ops_shape fuel os : forall t t', shape_inv (root t) ->
  apply_ops decodeNode fuel t os = Ok t' -> shape_inv (root t').
Proof.
  induction os as [|o os IH]; intros t t' Hs H; simpl in H.
  - now injection H as <-.
  - destruct (apply_op decodeNode fuel t o) as [t1|e] eqn:E; cbn [bind] in H; [|discriminate].
    exact (IH t1 t' (apply_op_shape fuel t o t1 Hs E) H).
Qed.

(** ** Reading back a stored value *)

(** Where [_get] finds [v], inserting [v] again reports no change: every
    Short and Full frame returns its node as it is, and a Hash node returns
    the node the store resolves it to. *)
Lemma get_insert_same t n : hwf decodeNode t n ->
  forall fuel key pos v nn rs, vk (skipn pos key) ->
  _get decodeNode t fuel n key pos = Ok (Some v, nn, rs) ->
  exists n', _insert decodeNode t fuel n key pos (ValueNode v) = Ok (false, n') /\
    (forall d, n = HashNode d -> resolveHash decodeNode t d key pos = Ok n') /\
    ((forall d, n <> HashNode d) -> n' = n).
Proof.
  induction 1 as [| k d0 f Hk | k c f Hk Hc IH | ch f Hl Hs IH Ht | d0 Hr IH];
    intros fuel key pos v nn rs Hv H; pose proof (vk_nonempty _ Hv) as Hne.
  - rewrite _get_eq, pos_lt_of_vk, js_assert_true in H by exact Hv. discriminate.
  - assert (W : wf (ShortNode k (ValueNode d0) f)) by now constructor.
    rewrite get_wf in H by assumption. injection H as L _ _.
    destruct (insert_wf t fuel v _ W key pos Hv) as (d & n' & E & _ & _ & _ & Hs & Hn).
    specialize (Hs L). subst d. rewrite (Hn eq_refl) in E.
    exists (ShortNode k (ValueNode d0) f). split; [exact E|].
    split; [intros ? E'; discriminate E' | auto].
  - rewrite _get_eq, pos_lt_of_vk, js_assert_true in H by exact Hv.
    cbv beta iota zeta in H. rewrite startsWith_skipn in H.
    destruct (startsWith (skipn pos key) k 0) eqn:E; cbn [negb] in H; [|discriminate].
    apply startsWith_app in E as [r' E].
    pose proof Hv as Hv0. rewrite E in Hv0. destruct (vk_after _ _ Hk Hv0) as [Hv' _].
    assert (Hs : skipn (pos + length k) key = r').
    { rewrite Nat.add_comm, <- skipn_skipn, E. apply skipn_length_app. }
    destruct (_get decodeNode t fuel c key (pos + length k)) as [[[val nn'] rs']|e] eqn:Ec;
      cbn [bind] in H; [|discriminate].
    assert (Hval : val = Some v) by (destruct rs'; injection H as -> _ _; reflexivity).
    subst val.
    destruct (IH fuel key (pos + length k) v nn' rs' ltac:(rewrite Hs; exact Hv') Ec)
      as (c' & Ei & _ & _).
    rewrite (insert_short_descend _ _ _ _ _ _ _ _ r') by first [exact E | rewrite <- E; exact Hne].
    rewrite Ei. cbn [bind negb].
    exists (ShortNode k c f). split; [reflexivity|].
    split; [intros ? E'; discriminate E' | auto].
  - rewrite _get_eq, pos_lt_of_vk, js_assert_true in H by exact Hv.
    destruct (skipn pos key) as [|i r] eqn:E; [contradiction|].
    destruct (skipn_cons_nth key pos i r E) as [Hi Hr']. rewrite Hi in H.
    cbv beta iota zeta in H.
    pose proof (vk_head_bound _ _ Hv) as Hi17.
    rewrite nth_app_nth, nth_error_17 in H by lia.
    rewrite (insert_full_eq _ _ _ _ _ _ _ i r) by auto.
    exists (FullNode ch f).
    split; [| split; [intros ? E'; discriminate E' | auto]].
    apply vk_inv in Hv as [[-> ->] | [Hi16 Hv]].
    + assert (Hlen : S pos = length key).
      { pose proof (length_skipn pos key) as L. rewrite E in L. simpl in L.
        pose proof (skipn_nonempty_lt key pos ltac:(rewrite E; discriminate)). lia. }
      rewrite Hlen, get_term in H by exact Ht. cbn [bind] in H. injection H as L _ _.
      destruct Ht as [E16 | [dd E16]]; rewrite E16 in L; [discriminate L|].
      simpl in L. injection L as ->.
      rewrite Hlen, E16, insert_term by (right; eauto).
      cbv beta iota. rewrite bytes_eqb_refl. reflexivity.
    + destruct (_get decodeNode t fuel (nth i ch Undefined) key (S pos))
        as [[[val nn'] rs']|e] eqn:Ec; cbn [bind] in H; [|discriminate].
      assert (Hval : val = Some v) by (destruct rs'; injection H as -> _ _; reflexivity).
      subst val.
      destruct (IH i Hi16 fuel key (S pos) v nn' rs' ltac:(rewrite Hr'; exact Hv) Ec)
        as (c' & Ei & _ & _).
      rewrite Ei. reflexivity.
  - destruct fuel as [|fuel'].
    + rewrite _get_eq, pos_lt_of_vk, js_assert_true in H by exact Hv. discriminate.
    + rewrite get_hash_eq in H by (apply Nat.leb_le, pos_lt_of_vk; exact Hv).
      destruct (resolveHash decodeNode t d0 key pos) as [rn|e] eqn:R;
        cbn [bind] in H; [|discriminate].
      destruct (_get decodeNode t fuel' rn key pos) as [[[val nn'] rs']|e] eqn:Ec;
        cbn [bind] in H; [|discriminate].
      injection H as -> _ _.
      destruct (IH key pos rn R fuel' key pos v nn' rs' Hv Ec) as (c' & Ei & _ & _).
      exists rn. rewrite insert_hash_eq by exact Hne. rewrite R. cbn [bind].
      rewrite Ei. cbn [bind negb]. split; [reflexivity|]. split.
      * intros d E'. injection E' as <-. exact R.
      * intros Hn. exfalso. exact (Hn d0 eq_refl).
Qed.

(** Every store-free tree of the shape [wf] has the shape [hwf]. *)
Lemma wf_hwf t n : wf n -> hwf decodeNode t n.
Proof.
  induction 1 as [| k d f Hk | k c f Hk Hc IH | ch f Hl Hch IH Ht].
  - apply hwf_null.
  - now apply hwf_leaf.
  - now apply hwf_ext.
  - now apply hwf_full.
Qed.

End Proofs.

(** * The claims *)

(** C1 (map semantics): starting from a new trie, with or without a store,
    any sequence of [insert(k, v)] and [remove(k)] runs without error, and
    [get(k)] afterwards returns the value of the last insert of [k] not
    followed by a remove of [k], and nothing when [k] was never inserted or
    was last removed; [get] leaves the trie as it is. *)
Theorem map_semantics (decodeNode : bytes -> res node) (encodeNode : node -> bytes)
  (h : Hash) (s : option Store) (limit : option nat) (fuel : nat) (os : list op) (k : bytes) :
  exists t, apply_ops decodeNode fuel (new_Trie encodeNode h s limit) os = Ok t /\
    get decodeNode t fuel k = Ok (expected os k, t).
Proof.
  destruct (apply_ops_inv decodeNode fuel os (new_Trie encodeNode h s limit) []
              wf_null (fun _ => eq_refl)) as (t & E & W & M).
  exists t. split; [exact E|].
  rewrite get_wf_root by exact W. now rewrite M.
Qed.

(** C2 (defect): when the store lacks the digest [d], [resolveHash] does not
    throw a [MissingNodeError] carrying [rootHash], [nodeHash], [key] and
    [pos]: the constructor [(hash, options = {})] receives the fields object
    as [hash], reads [nodeHash] as [undefined], and throws a TypeError at
    [nodeHash.toString('hex')]. *)
Theorem resolveHash_missing_typeerror (decodeNode : bytes -> res node) (t : Trie) (s : Store)
  (d : bytes) (key : nibbles) (pos : nat) :
  db t = Some s -> store_get s d = None ->
  resolveHash decodeNode t d key pos = Throw undefined_read.
Proof. intros Hd Hs. unfold resolveHash. rewrite Hd, Hs. reflexivity. Qed.

Lemma resolveHash_missing_typeerror_witness :
  db (ex_trie (Some ex_store)) = Some ex_store /\ store_get ex_store [Byte.x0b] = None /\
  resolveHash ex_decode (ex_trie (Some ex_store)) [Byte.x0b] (toNibbles [Byte.x01]) 0
  = Throw undefined_read.
Proof.
  split; [reflexivity|]. split; [reflexivity|].
  apply (resolveHash_missing_typeerror ex_decode (ex_trie (Some ex_store)) ex_store);
    reflexivity.
Defined.

(** C3: when the child selected in a Full node (every slot a node, decoding
    never yielding [undefined]) reports a found removal with new child [nn],
    [_remove] on the Full node returns found with the collapse of
    [full_collapse_spec] over the updated slots: [Short([16], children[16])]
    when slot 16 is the only non-Null slot, [Short([i] ++ child.key,
    child.value)] when the only one is [i < 16] and [children[i]] is or
    resolves to a Short, [Short([i], children[i])] otherwise, and the
    dirty-marked Full when two or more slots remain. *)
Theorem remove_full_collapse (decodeNode : bytes -> res node) (t : Trie) (fuel : nat)
  (ch : list node) (f : NodeFlags) (key : nibbles) (pos i : nat) (nn : node) :
  length ch = 17 -> (forall j, j < 17 -> nth j ch Undefined <> Undefined) ->
  (forall raw, decodeNode raw <> Ok Undefined) ->
  nth_error key pos = Some i -> i < 17 ->
  _remove decodeNode t fuel (nth i ch Undefined) key (S pos) = Ok (true, nn) ->
  nn <> Undefined ->
  _remove decodeNode t fuel (FullNode ch f) key pos =
  let* c := full_collapse_spec decodeNode t key (js_set_nat ch i nn) f in Ok (true, c).
Proof.
  intros Hl Hu Hd Hi Hi17 Hc Hnn.
  rewrite (remove_full_eq decodeNode t fuel ch f key pos i (skipn (S pos) key) Hl
             (nth_error_skipn key pos i Hi) Hi17).
  rewrite Hc. cbn [bind negb].
  assert (Hnth : forall j, j < 17 -> nth j (js_set_nat ch i nn) Undefined <> Undefined).
  { intros j Hj. rewrite nth_js_set_nat by lia. destruct (j =? i); auto. }
  apply collapse_eq; [rewrite length_js_set_nat; lia | exact Hnth |].
  intros j c Hj R.
  rewrite <- (nth_indep _ Undefined NullNode) in R by (rewrite length_js_set_nat; lia).
  exact (resolve_not_undefined decodeNode t _ key j c Hd (Hnth j Hj) R).
Qed.

Lemma remove_full_collapse_witness :
  _remove ex_decode (ex_trie None) 0 ex_full [1; 2; 16] 0 =
  let* c := full_collapse_spec ex_decode (ex_trie None) [1; 2; 16]
              (js_set_nat ex_children 1 NIL) (mkFlags 0 false None) in Ok (true, c).
Proof.
  apply (remove_full_collapse ex_decode (ex_trie None) 0 ex_children (mkFlags 0 false None)
           [1; 2; 16] 0 1 NIL).
  - reflexivity.
  - intros j Hj. do 17 (destruct j as [|j]; [discriminate|]). lia.
  - intros [|b [|b' r]]; discriminate.
  - reflexivity.
  - lia.
  - reflexivity.
  - discriminate.
Defined.

(** C8: for a new trie (root Null), [rootHash()] returns the empty-root
    constant [hash(encode(Null))] whatever the Hasher, and leaves the trie
    as it is. *)
Theorem rootHash_new_trie (Hasher : HasherFn) (encodeNode : node -> bytes) (h : Hash)
  (s : option Store) (limit : option nat) :
  rootHash Hasher (new_Trie encodeNode h s limit) =
  Ok (hash_digest h (encodeNode NullNode), new_Trie encodeNode h s limit).
Proof. reflexivity. Qed.

(** C10: [open()] with no root on a trie without a store, and [open(root)]
    with [root = emptyRoot], return without error and leave the trie (root,
    originalRoot, cacheGen) as it was. *)
Theorem open_noop (t : Trie) :
  (db t = None -> open t RootNone = Ok t) /\ open t (RootBuf (emptyRoot t)) = Ok t.
Proof.
  split.
  - intros H. unfold open. rewrite H. reflexivity.
  - unfold open. cbv beta iota zeta. rewrite bytes_eqb_refl. reflexivity.
Qed.

Lemma open_noop_witness :
  db (ex_trie None) = None /\ open (ex_trie None) RootNone = Ok (ex_trie None).
Proof.
  split; [reflexivity|].
  apply (proj1 (open_noop (ex_trie None))). reflexivity.
Defined.

(** C4, counterexample: on a trie opened at a stored root, [get(k)] yields
    [v], and [insert(k, v)] reports no change, yet [this.root] goes from the
    Hash node to the node decoded from the store. *)
Lemma insert_same_value_hash_root :
  get ex_decode ex_opened 1 [Byte.x01] = Ok (Some [Byte.x02], set_root ex_opened ex_leaf) /\
  _insert ex_decode ex_opened 1 (root ex_opened) (toNibbles [Byte.x01]) 0
    (ValueNode [Byte.x02]) = Ok (false, ex_leaf) /\
  insert ex_decode ex_opened 1 [Byte.x01] [Byte.x02] = Ok (set_root ex_opened ex_leaf) /\
  root ex_opened = HashNode [Byte.x0a] /\ ex_leaf <> HashNode [Byte.x0a].
Proof.
  split; [reflexivity|]. split; [reflexivity|]. split; [reflexivity|].
  split; [reflexivity | discriminate].
Qed.

(** C4 (amended): at [pos = |key|] over a Value node, [_insert] returns the
    Value node of the new data and reports a change iff the stored data
    differ.  On a trie whose tree has the shape [hwf] (its Hash nodes
    resolving to nodes of that shape), for a key [k] that [get] finds
    mapped to [v], [_insert] of [v] at the root reports no change.  When
    the root is not a Hash node, [_insert] returns the root itself and
    [insert(k, v)] leaves the trie as it is, Hash nodes below the root
    included; when the root is [Hash(d)], [insert(k, v)] replaces the root
    by the node the store resolves [d] to. *)
Theorem insert_same_value_noop :
  (forall (decodeNode : bytes -> res node) t fuel key d v,
     _insert decodeNode t fuel (ValueNode d) key (length key) (ValueNode v) =
     Ok (negb (bytes_eqb d v), ValueNode v)) /\
  (forall (decodeNode : bytes -> res node) t fuel k v t',
     hwf decodeNode t (root t) -> get decodeNode t fuel k = Ok (Some v, t') ->
     (forall d, root t <> HashNode d) ->
     _insert decodeNode t fuel (root t) (toNibbles k) 0 (ValueNode v) = Ok (false, root t) /\
     insert decodeNode t fuel k v = Ok t) /\
  (forall (decodeNode : bytes -> res node) t fuel k v t' d,
     hwf decodeNode t (root t) -> get decodeNode t fuel k = Ok (Some v, t') ->
     root t = HashNode d ->
     exists rn, resolveHash decodeNode t d (toNibbles k) 0 = Ok rn /\
       _insert decodeNode t fuel (root t) (toNibbles k) 0 (ValueNode v) = Ok (false, rn) /\
       insert decodeNode t fuel k v = Ok (set_root t rn)).
Proof.
  split; [|split].
  - intros decodeNode t fuel key d v.
    rewrite insert_term by (right; eauto). reflexivity.
  - intros decodeNode t fuel k v t' Hw Hg Hn.
    unfold get in Hg. cbv zeta in Hg.
    destruct (_get decodeNode t fuel (root t) (toNibbles k) 0) as [[[val nn] rs]|e] eqn:Eg;
      cbn [bind] in Hg; [|discriminate]. injection Hg as -> _.
    destruct (get_insert_same decodeNode t (root t) Hw fuel (toNibbles k) 0 v nn rs
                (vk_toNibbles k) Eg) as (n' & Ei & _ & Hr).
    rewrite (Hr Hn) in Ei. split; [exact Ei|].
    unfold insert. cbv zeta. rewrite Ei. cbn [bind]. now rewrite set_root_root.
  - intros decodeNode t fuel k v t' d Hw Hg Hd.
    unfold get in Hg. cbv zeta in Hg.
    destruct (_get decodeNode t fuel (root t) (toNibbles k) 0) as [[[val nn] rs]|e] eqn:Eg;
      cbn [bind] in Hg; [|discriminate]. injection Hg as -> _.
    destruct (get_insert_same decodeNode t (root t) Hw fuel (toNibbles k) 0 v nn rs
                (vk_toNibbles k) Eg) as (n' & Ei & Hh & _).
    exists n'. split; [exact (Hh d Hd)|]. split; [exact Ei|].
    unfold insert. cbv zeta. rewrite Ei. reflexivity.
Qed.

Lemma insert_same_value_noop_witness :
  (hwf ex_decode ex_hash_child_trie (root ex_hash_child_trie) /\
   (exists t', get ex_decode ex_hash_child_trie 1 [Byte.x12; Byte.x01] = Ok (Some [Byte.x02], t')) /\
   insert ex_decode ex_hash_child_trie 1 [Byte.x12; Byte.x01] [Byte.x02] = Ok ex_hash_child_trie) /\
  (hwf ex_decode ex_opened (root ex_opened) /\
   (exists t', get ex_decode ex_opened 1 [Byte.x01] = Ok (Some [Byte.x02], t')) /\
   exists rn, resolveHash ex_decode ex_opened [Byte.x0a] (toNibbles [Byte.x01]) 0 = Ok rn /\
     insert ex_decode ex_opened 1 [Byte.x01] [Byte.x02] = Ok (set_root ex_opened rn)).
Proof.
  assert (Hleaf : forall t, hwf ex_decode t ex_leaf)
    by (intros t; apply hwf_leaf; repeat constructor; lia).
  assert (W1 : hwf ex_decode ex_hash_child_trie (root ex_hash_child_trie)).
  { apply hwf_full; [reflexivity| |left; reflexivity].
    intros i Hi.
    destruct i as [|[|[|[|i]]]]; [apply hwf_null | | apply hwf_null | |].
    - apply hwf_ext; [repeat constructor; lia|].
      apply hwf_hash. intros key pos rn R. cbv in R. injection R as <-. apply Hleaf.
    - apply hwf_leaf. repeat constructor; lia.
    - do 12 (destruct i as [|i]; [apply hwf_null|]). lia. }
  assert (W2 : hwf ex_decode ex_opened (root ex_opened)).
  { apply hwf_hash. intros key pos rn R. cbv in R. injection R as <-. apply Hleaf. }
  destruct insert_same_value_noop as (_ & P2 & P3).
  split.
  - split; [exact W1|]. split; [eexists; reflexivity|].
    refine (proj2 (P2 ex_decode ex_hash_child_trie 1 [Byte.x12; Byte.x01] [Byte.x02] _ W1 _ _)).
    + reflexivity.
    + intros d E. discriminate E.
  - split; [exact W2|]. split; [eexists; reflexivity|].
    destruct (P3 ex_decode ex_opened 1 [Byte.x01] [Byte.x02] _ [Byte.x0a] W2 ltac:(reflexivity)
                eq_refl) as (rn & R & _ & I).
    exists rn. split; [exact R | exact I].
Defined.

(** C5 (defect): with no root given and a store, [open] continues with the
    root stored under the state key [0x73] (and changes nothing when there
    is none); a root equal to [emptyRoot] changes nothing; any other root
    of the wrong length fails an assertion, without a store fails with
    "Cannot use root without database.", and when present in the store
    sets [originalRoot = root] and [root = Hash(root)], keeping the rest.
    When the store lacks the root, [open] does not fail with a
    [MissingNodeError] citing it: the constructor [(hash, options = {})]
    receives the fields object as [hash], reads [nodeHash] as [undefined],
    and throws a TypeError at [nodeHash.toString('hex')]. *)
Theorem open_spec (t : Trie) :
  (forall s, db t = Some s ->
     open t RootNone = match store_get s STATE_KEY with
                       | Some r => open t (RootBuf r)
                       | None => Ok t
                       end) /\
  open t (RootBuf (emptyRoot t)) = Ok t /\
  (forall r, r <> emptyRoot t ->
     (length r <> hash_size (hash t) -> open t (RootBuf r) = Throw AssertionError) /\
     (length r = hash_size (hash t) -> db t = None ->
        open t (RootBuf r) = Throw (Error "Cannot use root without database.")) /\
     (forall s, length r = hash_size (hash t) -> db t = Some s -> store_has s r = false ->
        open t (RootBuf r) = Throw undefined_read) /\
     (forall s, length r = hash_size (hash t) -> db t = Some s -> store_has s r = true ->
        open t (RootBuf r) =
        Ok (mkTrie (hash t) (emptyRoot t) (db t) r (HashNode r) (cacheGen t) (cacheLimit t)))).
Proof.
  split; [|split].
  - intros s Hs. unfold open. rewrite Hs. cbv beta iota zeta.
    destruct (store_get s STATE_KEY); reflexivity.
  - unfold open. cbv beta iota zeta. rewrite bytes_eqb_refl. reflexivity.
  - intros r Hr.
    assert (Hne : bytes_eqb r (emptyRoot t) = false).
    { destruct (bytes_eqb r (emptyRoot t)) eqn:E; [|reflexivity].
      apply bytes_eqb_true in E. contradiction. }
    unfold open. cbv beta iota zeta. rewrite Hne. cbn [negb]. unfold js_assert.
    split; [|split; [|split]].
    + intros Hl. apply Nat.eqb_neq in Hl. now rewrite Hl.
    + intros Hl Hd. apply Nat.eqb_eq in Hl. now rewrite Hl, Hd.
    + intros s Hl Hd Hs. apply Nat.eqb_eq in Hl. rewrite Hl, Hd, Hs. reflexivity.
    + intros s Hl Hd Hs. apply Nat.eqb_eq in Hl. rewrite Hl, Hd, Hs. cbn [negb].
      unfold set_opened. now rewrite Hd.
Qed.

Lemma open_spec_witness :
  open (ex_trie (Some ex_store)) RootNone = open (ex_trie (Some ex_store)) (RootBuf [Byte.x0a]) /\
  open (ex_trie (Some ex_store)) (RootBuf [Byte.x0b]) = Throw undefined_read /\
  open (ex_trie (Some ex_store)) (RootBuf [Byte.x0a]) = Ok ex_opened.
Proof.
  destruct (open_spec (ex_trie (Some ex_store))) as (H1 & _ & H3).
  split; [|split].
  - exact (H1 ex_store eq_refl).
  - apply (proj1 (proj2 (proj2 (H3 [Byte.x0b] ltac:(discriminate)))) ex_store);
      reflexivity.
  - apply (proj2 (proj2 (proj2 (H3 [Byte.x0a] ltac:(discriminate)))) ex_store);
      reflexivity.
Defined.

(** C6: [commit(batch)] hashes the root through the Hasher with the batch
    (a Null root short-cuts to [emptyRoot]), then puts [(0x73, digest)]
    into the batch after the Hasher's writes, sets [originalRoot] to the
    digest, [root] to the cached tree and [cacheGen] to [cacheGen + 1],
    keeps the rest, and returns the digest. *)
Theorem commit_spec (Hasher : HasherFn) (t : Trie) (b : list write) :
  root t <> Undefined ->
  exists h cached ws,
    hashRoot Hasher t (Some b) = Ok (h, cached, ws) /\
    (root t <> NullNode ->
       (h, cached, ws) = Hasher (hash t) (cacheGen t) (cacheLimit t) (root t) (Some b)) /\
    commit Hasher t (Some b) =
    Ok (h, mkTrie (hash t) (emptyRoot t) (db t) h cached (S (cacheGen t)) (cacheLimit t),
        b ++ ws ++ [(STATE_KEY, h)]).
Proof.
  intros Hu.
  assert (Hh : (root t = NullNode /\ hashRoot Hasher t (Some b) = Ok (emptyRoot t, NIL, [])) \/
               (root t <> NullNode /\ hashRoot Hasher t (Some b) =
                  Ok (Hasher (hash t) (cacheGen t) (cacheLimit t) (root t) (Some b)))).
  { unfold hashRoot. destruct (root t); try contradiction; [left | right ..];
      split; first [reflexivity | discriminate]. }
  unfold commit.
  destruct Hh as [[Hn Hh] | [Hn Hh]]; rewrite Hh.
  - exists (emptyRoot t), NIL, []. split; [reflexivity|].
    split; [intros H; contradiction | reflexivity].
  - destruct (Hasher (hash t) (cacheGen t) (cacheLimit t) (root t) (Some b)) as [[h c'] ws].
    exists h, c', ws. split; [reflexivity|]. split; [intros _; reflexivity | reflexivity].
Qed.

Lemma commit_spec_witness :
  root ex_opened <> Undefined /\
  exists h cached ws,
    hashRoot ex_Hasher ex_opened (Some []) = Ok (h, cached, ws) /\
    (root ex_opened <> NullNode ->
       (h, cached, ws) = ex_Hasher (hash ex_opened) (cacheGen ex_opened)
                           (cacheLimit ex_opened) (root ex_opened) (Some [])) /\
    commit ex_Hasher ex_opened (Some []) =
    Ok (h, mkTrie (hash ex_opened) (emptyRoot ex_opened) (db ex_opened) h cached
             (S (cacheGen ex_opened)) (cacheLimit ex_opened), [] ++ ws ++ [(STATE_KEY, h)]).
Proof.
  split; [discriminate|].
  apply (commit_spec ex_Hasher ex_opened []). discriminate.
Defined.

(** C7: when [_remove] reports not found, the node it returns is the node
    it was given, except at a Hash node, where it is the node stored under
    the digest (the same subtree, decoded): no frame rewrites a slot or a
    key or collapses. *)
Theorem remove_not_found_unchanged (decodeNode : bytes -> res node) (t : Trie) (fuel : nat)
  (n : node) (key : nibbles) (pos : nat) (r : node) :
  _remove decodeNode t fuel n key pos = Ok (false, r) ->
  r = n \/ exists d, n = HashNode d /\ forall key' pos', resolveHash decodeNode t d key' pos' = Ok r.
Proof.
  intros H.
  destruct (remove_false decodeNode t fuel n key pos r H) as [-> | (d & rn & -> & R & ->)].
  - now left.
  - right. exists d. split; [reflexivity|].
    intros key' pos'. exact (resolveHash_indep decodeNode t d key pos key' pos' rn R).
Qed.

Lemma remove_not_found_unchanged_witness :
  _remove ex_decode (ex_trie None) 0 ex_leaf [0; 2; 16] 0 = Ok (false, ex_leaf) /\
  (ex_leaf = ex_leaf \/ exists d, ex_leaf = HashNode d /\
     forall key' pos', resolveHash ex_decode (ex_trie None) d key' pos' = Ok ex_leaf).
Proof.
  split; [reflexivity|].
  apply (remove_not_found_unchanged ex_decode (ex_trie None) 0 ex_leaf [0; 2; 16] 0 ex_leaf).
  reflexivity.
Defined.

(** C9: when [this.root] is the Hash node of digest [d], stored as [rn],
    an [insert(k, v)] whose walk below [rn] reports no change and a
    [remove(k)] that finds nothing both set [this.root] to [rn], not to the
    Hash node; and the trie with root [rn] maps every key as the trie with
    the Hash root did. *)
Theorem hash_root_materialized (decodeNode : bytes -> res node) (t : Trie) (fuel : nat)
  (d : bytes) (rn : node) (k v : bytes) :
  root t = HashNode d -> resolveHash decodeNode t d (toNibbles k) 0 = Ok rn ->
  ((exists nn, _insert decodeNode t fuel rn (toNibbles k) 0 (ValueNode v) = Ok (false, nn)) ->
     insert decodeNode t (S fuel) k v = Ok (set_root t rn)) /\
  ((exists nn, _remove decodeNode t fuel rn (toNibbles k) 0 = Ok (false, nn)) ->
     remove decodeNode t (S fuel) k = Ok (set_root t rn)) /\
  (forall f k', get_value decodeNode t (S f) k' = get_value decodeNode (set_root t rn) f k').
Proof.
  intros Hr R. split; [|split].
  - intros [nn Hi]. unfold insert. cbv zeta. rewrite Hr.
    rewrite insert_hash_eq by apply toNibbles_nonempty.
    rewrite R. cbn [bind]. rewrite Hi. reflexivity.
  - intros [nn Hm]. unfold remove. cbv zeta. rewrite Hr.
    rewrite remove_hash_eq by lia.
    rewrite R. cbn [bind]. rewrite Hm. reflexivity.
  - intros f k'. unfold get_value, get. cbv zeta. rewrite Hr.
    rewrite get_hash_eq by lia.
    rewrite (resolveHash_indep decodeNode t d (toNibbles k) 0 (toNibbles k') 0 rn R).
    cbn [bind root set_root]. rewrite _get_set_root.
    destruct (_get decodeNode t f rn (toNibbles k') 0) as [[[val nn] rs]|e]; reflexivity.
Qed.

Lemma hash_root_materialized_witness :
  root ex_opened = HashNode [Byte.x0a] /\
  resolveHash ex_decode ex_opened [Byte.x0a] (toNibbles [Byte.x01]) 0 = Ok ex_leaf /\
  insert ex_decode ex_opened 1 [Byte.x01] [Byte.x02] = Ok (set_root ex_opened ex_leaf).
Proof.
  split; [reflexivity|]. split; [reflexivity|].
  apply (proj1 (hash_root_materialized ex_decode ex_opened 0 [Byte.x0a] ex_leaf
                  [Byte.x01] [Byte.x02] eq_refl eq_refl)).
  exists ex_leaf. reflexivity.
Defined.

(** * Further properties of the code *)

(** X1: on a trie whose root is a well-formed store-free tree, [insert(k, v)]
    runs without error and changes only the root; the new root is again
    well formed, maps [k] to [v] and every other key as before, and is the
    old root itself when [k] already mapped to [v]. *)
Theorem insert_wf_trie (decodeNode : bytes -> res node) (t : Trie) (fuel : nat) (k v : bytes) :
  wf (root t) ->
  exists r, insert decodeNode t fuel k v = Ok (set_root t r) /\ wf r /\
    get_value decodeNode (set_root t r) fuel k = Ok (Some v) /\
    (forall k', k' <> k ->
       get_value decodeNode (set_root t r) fuel k' = get_value decodeNode t fuel k') /\
    (get_value decodeNode t fuel k = Ok (Some v) -> r = root t).
Proof.
  intros W.
  destruct (insert_wf decodeNode t fuel v (root t) W (toNibbles k) 0 (vk_toNibbles k))
    as (d & r & Ei & Wr & Lk & Lo & Hs & Hn).
  cbn [skipn] in Ei, Lk, Lo, Hs.
  exists r. split; [unfold insert; cbv zeta; rewrite Ei; reflexivity|].
  split; [exact Wr|].
  split; [rewrite get_value_wf by exact Wr; cbn [set_root root]; now rewrite Lk|].
  split.
  - intros k' Hk. rewrite !get_value_wf by (exact Wr || exact W). cbn [set_root root].
    f_equal. apply Lo; [apply vk_toNibbles|]. intros E. apply Hk, toNibbles_inj, E.
  - rewrite get_value_wf by exact W. intros H. injection H as H.
    specialize (Hs H). subst d. now apply Hn.
Qed.

Lemma insert_wf_trie_witness :
  wf (root ex_full_trie) /\
  exists r, insert ex_decode ex_full_trie 0 [Byte.x12] [Byte.x07] = Ok (set_root ex_full_trie r) /\
    wf r /\ get_value ex_decode (set_root ex_full_trie r) 0 [Byte.x12] = Ok (Some [Byte.x07]) /\
    (forall k', k' <> [Byte.x12] ->
       get_value ex_decode (set_root ex_full_trie r) 0 k' = get_value ex_decode ex_full_trie 0 k') /\
    (get_value ex_decode ex_full_trie 0 [Byte.x12] = Ok (Some [Byte.x07]) -> r = root ex_full_trie).
Proof.
  split; [apply wfb_sound; reflexivity|].
  apply insert_wf_trie. apply wfb_sound. reflexivity.
Defined.

(** X2: on a trie whose root is a well-formed store-free tree, [remove(k)]
    runs without error and changes only the root; the new root is again
    well formed, maps [k] to nothing and every other key as before. *)
Theorem remove_wf_trie (decodeNode : bytes -> res node) (t : Trie) (fuel : nat) (k : bytes) :
  wf (root t) ->
  exists r, remove decodeNode t fuel k = Ok (set_root t r) /\ wf r /\
    get_value decodeNode (set_root t r) fuel k = Ok None /\
    (forall k', k' <> k ->
       get_value decodeNode (set_root t r) fuel k' = get_value decodeNode t fuel k').
Proof.
  intros W.
  destruct (remove_wf decodeNode t fuel (root t) W (toNibbles k) 0 (vk_toNibbles k))
    as (d & r & Er & Wr & Lk & Lo & _).
  cbn [skipn] in Er, Lk, Lo.
  exists r. split; [unfold remove; cbv zeta; rewrite Er; reflexivity|].
  split; [exact Wr|].
  split; [rewrite get_value_wf by exact Wr; cbn [set_root root]; now rewrite Lk|].
  intros k' Hk. rewrite !get_value_wf by (exact Wr || exact W). cbn [set_root root].
  f_equal. apply Lo; [apply vk_toNibbles|]. intros E. apply Hk, toNibbles_inj, E.
Qed.

Lemma remove_wf_trie_witness :
  wf (root ex_full_trie) /\
  exists r, remove ex_decode ex_full_trie 0 [Byte.x12] = Ok (set_root ex_full_trie r) /\ wf r /\
    get_value ex_decode (set_root ex_full_trie r) 0 [Byte.x12] = Ok None /\
    (forall k', k' <> [Byte.x12] ->
       get_value ex_decode (set_root ex_full_trie r) 0 k' = get_value ex_decode ex_full_trie 0 k').
Proof.
  split; [apply wfb_sound; reflexivity|].
  apply remove_wf_trie. apply wfb_sound. reflexivity.
Defined.

(** X3: on a trie whose root is a well-formed store-free tree, removing a
    key that maps to nothing leaves the trie exactly as it is. *)
Theorem remove_absent_noop (decodeNode : bytes -> res node) (t : Trie) (fuel : nat) (k : bytes) :
  wf (root t) -> get_value decodeNode t fuel k = Ok None ->
  remove decodeNode t fuel k = Ok t.
Proof.
  intros W G. rewrite get_value_wf in G by exact W. injection G as G.
  unfold remove. cbv zeta.
  rewrite (remove_absent decodeNode t fuel (root t) W (toNibbles k) 0 (vk_toNibbles k) G).
  cbn [bind]. now rewrite set_root_root.
Qed.

Lemma remove_absent_noop_witness :
  wf (root ex_full_trie) /\ get_value ex_decode ex_full_trie 0 [Byte.x15] = Ok None /\
  remove ex_decode ex_full_trie 0 [Byte.x15] = Ok ex_full_trie.
Proof.
  split; [apply wfb_sound; reflexivity|]. split; [reflexivity|].
  apply remove_absent_noop; [apply wfb_sound |]; reflexivity.
Defined.

(** X4: after [close()], every [get] returns nothing and leaves the trie as
    it is, and [rootHash()] returns [emptyRoot] whatever the Hasher, also
    leaving the trie as it is; the store, hash and cache limit are kept. *)
Theorem close_empty (decodeNode : bytes -> res node) (Hasher : HasherFn) (t : Trie)
  (fuel : nat) (k : bytes) :
  get decodeNode (close t) fuel k = Ok (None, close t) /\
  rootHash Hasher (close t) = Ok (emptyRoot t, close t) /\
  db (close t) = db t /\ hash (close t) = hash t /\ cacheLimit (close t) = cacheLimit t.
Proof.
  split; [|split]; [| |repeat split].
  - destruct fuel; reflexivity.
  - reflexivity.
Qed.

(** X5: [inject(root)] fails an assertion when [root] has the wrong length;
    for [root = emptyRoot] it resets the trie as [close()] does; otherwise
    it sets [originalRoot = root], [root = Hash(root)] and [cacheGen = 0].
    It never reads the store: unlike [open], it succeeds without a store and
    for a root the store does not hold. *)
Theorem inject_spec (t : Trie) (r : bytes) :
  (length r <> hash_size (hash t) -> inject t (RootBuf r) = Throw AssertionError) /\
  (length r = hash_size (hash t) -> r = emptyRoot t -> inject t (RootBuf r) = Ok (close t)) /\
  (length r = hash_size (hash t) -> r <> emptyRoot t ->
     inject t (RootBuf r) =
     Ok (mkTrie (hash t) (emptyRoot t) (db t) r (HashNode r) 0 (cacheLimit t))).
Proof.
  unfold inject. cbv beta iota zeta. unfold js_assert. split; [|split].
  - intros Hl. apply Nat.eqb_neq in Hl. now rewrite Hl.
  - intros Hl ->. apply Nat.eqb_eq in Hl. rewrite Hl, bytes_eqb_refl. reflexivity.
  - intros Hl Hr. apply Nat.eqb_eq in Hl. rewrite Hl. cbn [emptyRoot].
    destruct (bytes_eqb r (emptyRoot t)) eqn:E.
    + apply bytes_eqb_true in E. contradiction.
    + reflexivity.
Qed.

Lemma inject_spec_witness :
  inject (ex_trie None) (RootBuf [Byte.x0a]) =
  Ok (mkTrie ex_hash (emptyRoot (ex_trie None)) None [Byte.x0a] (HashNode [Byte.x0a]) 0 4).
Proof.
  apply (proj2 (proj2 (inject_spec (ex_trie None) [Byte.x0a]))); [reflexivity | discriminate].
Defined.

(** X6: inserts and removes leave [inject()] and [snapshot()] (no root
    given) as they were: both go back to the original root, dropping the
    changes made in memory since the last [open], [inject] or [commit]. *)
Theorem inject_drops_changes (decodeNode : bytes -> res node) (encodeNode : node -> bytes)
  (fuel : nat) (os : list op) (t t' : Trie) :
  apply_ops decodeNode fuel t os = Ok t' ->
  inject t' RootNone = inject t RootNone /\
  snapshot encodeNode t' RootNone = snapshot encodeNode t RootNone.
Proof.
  intros H. rewrite (apply_ops_set_root decodeNode fuel os t t' H). split; reflexivity.
Qed.

Lemma inject_drops_changes_witness :
  apply_ops ex_decode 1 ex_opened [OpInsert [Byte.x22] [Byte.x05]] =
    Ok (set_root ex_opened
          (FullNode [ShortNode [1; 16] (ValueNode [Byte.x02]) (flags ex_opened); NIL;
                     ShortNode [2; 16] (ValueNode [Byte.x05]) (flags ex_opened);
                     NIL; NIL; NIL; NIL; NIL; NIL; NIL; NIL; NIL; NIL; NIL; NIL; NIL; NIL]
                    (flags ex_opened))) /\
  inject (set_root ex_opened
          (FullNode [ShortNode [1; 16] (ValueNode [Byte.x02]) (flags ex_opened); NIL;
                     ShortNode [2; 16] (ValueNode [Byte.x05]) (flags ex_opened);
                     NIL; NIL; NIL; NIL; NIL; NIL; NIL; NIL; NIL; NIL; NIL; NIL; NIL; NIL]
                    (flags ex_opened))) RootNone = inject ex_opened RootNone.
Proof.
  split; [reflexivity|].
  apply (inject_drops_changes ex_decode ex_encode 1 [OpInsert [Byte.x22] [Byte.x05]]).
  reflexivity.
Defined.

(** X7: [snapshot(root)] without a store fails with "Cannot snapshot
    without database."; with a store it builds a new trie on the same hash,
    store and cache limit: empty for [root = emptyRoot], and otherwise with
    [originalRoot = root], [root = Hash(root)] and [cacheGen = 0], without
    checking that the store holds [root]. *)
Theorem snapshot_spec (encodeNode : node -> bytes) (t : Trie) (r : bytes) :
  (db t = None -> snapshot encodeNode t (RootBuf r) =
                  Throw (Error "Cannot snapshot without database.")) /\
  (forall s, db t = Some s -> length r = hash_size (hash t) ->
     r = common_emptyRoot encodeNode (hash t) ->
     snapshot encodeNode t (RootBuf r) =
     Ok (new_Trie encodeNode (hash t) (Some s) (Some (cacheLimit t)))) /\
  (forall s, db t = Some s -> length r = hash_size (hash t) ->
     r <> common_emptyRoot encodeNode (hash t) ->
     snapshot encodeNode t (RootBuf r) =
     Ok (mkTrie (hash t) (common_emptyRoot encodeNode (hash t)) (Some s) r (HashNode r) 0
              (cacheLimit t))).
Proof.
  unfold snapshot. cbv beta iota zeta. split; [|split].
  - intros H. now rewrite H.
  - intros s H Hl Hr. rewrite H.
    destruct (inject_spec (new_Trie encodeNode (hash t) (Some s) (Some (cacheLimit t))) r)
      as (_ & E & _).
    rewrite E by assumption. reflexivity.
  - intros s H Hl Hr. rewrite H.
    destruct (inject_spec (new_Trie encodeNode (hash t) (Some s) (Some (cacheLimit t))) r)
      as (_ & _ & E).
    rewrite E by assumption. reflexivity.
Qed.

Lemma snapshot_spec_witness :
  db ex_opened = Some ex_store /\
  snapshot ex_encode ex_opened (RootBuf [Byte.x0b]) =
  Ok (mkTrie ex_hash [Byte.x00] (Some ex_store) [Byte.x0b] (HashNode [Byte.x0b]) 0 4).
Proof.
  split; [reflexivity|].
  apply (proj2 (proj2 (snapshot_spec ex_encode ex_opened [Byte.x0b])) ex_store);
    [reflexivity | reflexivity | discriminate].
Defined.

(** X8: [open(root)] with a non-empty root of the right length that the
    store does not hold (given, or read under the state key [0x73]) throws
    a TypeError: the [MissingNodeError] it builds receives its fields object
    as [hash] and reads [nodeHash] as [undefined]. *)
Theorem open_missing_root_typeerror (t : Trie) (s : Store) (r : bytes) :
  r <> emptyRoot t -> length r = hash_size (hash t) -> db t = Some s ->
  store_has s r = false ->
  open t (RootBuf r) = Throw undefined_read /\
  (store_get s STATE_KEY = Some r -> open t RootNone = Throw undefined_read).
Proof.
  intros Hr Hl Hd Hs.
  assert (Hne : bytes_eqb r (emptyRoot t) = false).
  { destruct (bytes_eqb r (emptyRoot t)) eqn:E; [|reflexivity].
    apply bytes_eqb_true in E. contradiction. }
  apply Nat.eqb_eq in Hl.
  assert (E : open t (RootBuf r) = Throw undefined_read).
  { unfold open. cbv beta iota zeta. rewrite Hne. cbn [negb]. unfold js_assert.
    rewrite Hl, Hd, Hs. reflexivity. }
  split; [exact E|].
  intros Hk. rewrite <- E. unfold open. cbv beta iota zeta. rewrite Hd, Hk. reflexivity.
Qed.

Lemma open_missing_root_typeerror_witness :
  open (ex_trie (Some ex_store)) (RootBuf [Byte.x0b]) = Throw undefined_read.
Proof.
  apply (proj1 (open_missing_root_typeerror (ex_trie (Some ex_store)) ex_store [Byte.x0b]
                  ltac:(discriminate) eq_refl eq_refl eq_refl)).
Defined.

(** X9: on a trie without a store whose root is a Hash node (as [inject]
    leaves it), [get], [insert] and [remove] all fail with "Cannot resolve
    hash without database.". *)
Theorem hash_root_without_store (decodeNode : bytes -> res node) (t : Trie) (fuel : nat)
  (d k v : bytes) :
  db t = None -> root t = HashNode d ->
  get decodeNode t (S fuel) k = Throw (Error "Cannot resolve hash without database.") /\
  insert decodeNode t (S fuel) k v = Throw (Error "Cannot resolve hash without database.") /\
  remove decodeNode t (S fuel) k = Throw (Error "Cannot resolve hash without database.").
Proof.
  intros Hd Hr.
  assert (R : forall key pos, resolveHash decodeNode t d key pos =
                              Throw (Error "Cannot resolve hash without database."))
    by (intros; unfold resolveHash; now rewrite Hd).
  split; [|split].
  - unfold get. cbv zeta. rewrite Hr, get_hash_eq by lia. rewrite R. reflexivity.
  - unfold insert. cbv zeta. rewrite Hr, insert_hash_eq by apply toNibbles_nonempty.
    rewrite R. reflexivity.
  - unfold remove. cbv zeta. rewrite Hr, remove_hash_eq by lia. rewrite R. reflexivity.
Qed.

Lemma hash_root_without_store_witness :
  inject (ex_trie None) (RootBuf [Byte.x0a]) =
    Ok (mkTrie ex_hash [Byte.x00] None [Byte.x0a] (HashNode [Byte.x0a]) 0 4) /\
  get ex_decode (mkTrie ex_hash [Byte.x00] None [Byte.x0a] (HashNode [Byte.x0a]) 0 4) 1
    [Byte.x01] = Throw (Error "Cannot resolve hash without database.").
Proof.
  split; [reflexivity|].
  apply (proj1 (hash_root_without_store ex_decode
                  (mkTrie ex_hash [Byte.x00] None [Byte.x0a] (HashNode [Byte.x0a]) 0 4)
                  0 [Byte.x0a] [Byte.x01] [Byte.x02] eq_refl eq_refl)).
Defined.

(** X10: a trie that starts from an empty root and goes through inserts
    and removes that leave no key mapped is exactly the trie it started
    from: no node is left behind, and its root hash is the empty root,
    without calling the hasher. *)
Theorem empty_map_null_root decodeNode t0 fuel os t :
  root t0 = NullNode ->
  apply_ops decodeNode fuel t0 os = Ok t ->
  (forall k, expected os k = None) ->
  t = t0 /\ forall Hasher, rootHash Hasher t = Ok (emptyRoot t0, t0).
Proof.
  intros Hn H He.
  assert (Hs : shape_inv (root t)).
  { apply (apply_ops_shape decodeNode fuel os t0 t); [|exact H].
    rewrite Hn. split; [now left|]. intros r _ L. now rewrite lk_null in L. }
  destruct (apply_ops_inv decodeNode fuel os t0 []) as (t' & E & _ & M).
  - rewrite Hn. constructor.
  - intros k. rewrite Hn, lk_null. reflexivity.
  - rewrite H in E. injection E as <-. simpl in M.
    assert (Hr : root t = NullNode).
    { destruct Hs as [[Hr | C] Img]; [exact Hr|]. exfalso.
      destruct (cwf_nonempty _ C) as (r & Hv & L).
      destruct (Img r Hv L) as (k & ->). rewrite M, He in L. now apply L. }
    assert (Ht : t = t0).
    { rewrite (apply_ops_set_root decodeNode fuel os t0 t H), Hr, <- Hn.
      apply set_root_root. }
    subst t. split; [reflexivity|]. intros Hasher.
    unfold rootHash, hashRoot. rewrite Hn. cbn [bind]. unfold NIL. rewrite <- Hn, set_root_root.
    reflexivity.
Qed.

Lemma empty_map_null_root_witness :
  root (ex_trie None) = NullNode /\
  apply_ops ex_decode 1 (ex_trie None) [OpInsert [Byte.x01] [Byte.x02]; OpRemove [Byte.x01]]
    = Ok (ex_trie None) /\
  (forall k, expected [OpInsert [Byte.x01] [Byte.x02]; OpRemove [Byte.x01]] k = None) /\
  ex_trie None = ex_trie None /\
  forall Hasher, rootHash Hasher (ex_trie None) = Ok (emptyRoot (ex_trie None), ex_trie None).
Proof.
  assert (H1 : apply_ops ex_decode 1 (ex_trie None)
                 [OpInsert [Byte.x01] [Byte.x02]; OpRemove [Byte.x01]] = Ok (ex_trie None))
    by reflexivity.
  assert (H2 : forall k, expected [OpInsert [Byte.x01] [Byte.x02]; OpRemove [Byte.x01]] k = None)
    by (intros k; unfold expected; simpl; destruct (bytes_eqb [Byte.x01] k); reflexivity).
  split; [reflexivity|]. split; [exact H1|]. split; [exact H2|].
  exact (empty_map_null_root ex_decode (ex_trie None) 1 _ (ex_trie None) eq_refl H1 H2).
Defined.
